(** * KawPow slow hash: a shallow embedding of [src/crypto/kawpow-slow-hash.c]

    The C code works on [uint32_t] and [uint64_t] values, on a byte buffer
    handed over as a pointer with a length, and on a handful of file-level
    variables.  Machine integers are modelled as [Z] with the wrap-around
    written out, arrays as lists updated by index, the PRNG and the register
    file as an explicit state threaded through a small state monad, and the
    file-level variables as a record.

    Platform assumptions (the ones of the 64-bit targets the code is built
    for): [int] and [uint32_t] are 32 bits wide, [size_t] and [uint64_t] are
    64 bits wide, memory is little-endian, and an out-of-range conversion to
    [int] reduces modulo [2^32] (as GCC, Clang and MSVC define it).

    Shifts are given twice.  The functions at top level compute what the
    machine computes, also where C leaves the result open: a right shift of
    a 32-bit word by 32 yields 0 there, and a processor that masks the shift
    count instead yields the same rotations ([rotl32_masked_count],
    [rotr32_masked_count]).  Module [Strict] follows the C abstract machine
    and has no result for a shift by 32 or more. *)

From Stdlib Require Import ZArith List Lia Bool.
From Stdlib Require Import Strings.Byte Strings.Ascii Strings.String.
From stdpp Require Import base list.
Import ListNotations.
Local Open Scope Z_scope.

(** ** Machine integers *)

Definition u32 (x : Z) : Z := x mod 2 ^ 32.
Definition u64 (x : Z) : Z := x mod 2 ^ 64.

(** Conversion of an unsigned value to [int]. *)
Definition to_int (x : Z) : Z :=
  let y := x mod 2 ^ 32 in if y <? 2 ^ 31 then y else y - 2 ^ 32.

Definition is_u32 (x : Z) : Prop := 0 <= x < 2 ^ 32.
Definition is_u64 (x : Z) : Prop := 0 <= x < 2 ^ 64.

(** [x << n] and [x >> n] on [uint32_t], as the machine computes them. *)
Definition shl32 (x n : Z) : Z := u32 (Z.shiftl x n).
Definition shr32 (x n : Z) : Z := Z.shiftr x n.

(** ** Constants *)

Definition KAWPOW_PERIOD : Z := 3.
Definition KAWPOW_LANES : Z := 16.
Definition KAWPOW_REGS : Z := 32.
Definition KAWPOW_DAG_LOADS : Z := 4.
Definition KAWPOW_CNT_DAG : Z := 64.
Definition KAWPOW_CNT_CACHE : Z := 11.
Definition KAWPOW_CNT_MATH : Z := 18.
Definition KAWPOW_EPOCH_LENGTH : Z := 7500.

(** Modelled from the spec: [HASH_SIZE] comes from hash-ops.h, which is not
    among the sources; seed hashes and digests are 32 bytes long
    (sections 3 and 4.7). *)
Definition HASH_SIZE : Z := 32.

Definition FNV_PRIME : Z := 0x1000193.
Definition FNV_OFFSET_BASIS : Z := 0x811c9dc5.

(** ** FNV1a and KISS99 *)

Definition fnv1a (h d : Z) : Z := u32 (Z.lxor h d * FNV_PRIME).

Record kiss99_t : Type := Kiss99 { z : Z; w : Z; jsr : Z; jcong : Z }.

Definition kiss99 (st : kiss99_t) : Z * kiss99_t :=
  let z1 := u32 (36969 * Z.land (z st) 65535 + shr32 (z st) 16) in
  let w1 := u32 (18000 * Z.land (w st) 65535 + shr32 (w st) 16) in
  let MWC := u32 (shl32 z1 16 + w1) in
  let j1 := Z.lxor (jsr st) (shl32 (jsr st) 17) in
  let j2 := Z.lxor j1 (shr32 j1 13) in
  let j3 := Z.lxor j2 (shl32 j2 5) in
  let c1 := u32 (69069 * jcong st + 1234567) in
  (u32 (Z.lxor MWC c1 + j3), Kiss99 z1 w1 j3 c1).

(** ** Rotations and the two operator families *)

Definition rotl32 (x n : Z) : Z := Z.lor (shl32 x n) (shr32 x (32 - n)).
Definition rotr32 (x n : Z) : Z := Z.lor (shr32 x n) (shl32 x (32 - n)).

(** [__builtin_clz] on a non-zero 32-bit value and [__builtin_popcount]. *)
Definition builtin_clz (x : Z) : Z := 31 - Z.log2 x.
Definition builtin_popcount (x : Z) : Z :=
  Z.of_nat (length (List.filter (fun i => Z.testbit x (Z.of_nat i)) (seq 0 32))).

Definition kawpow_math (a b r : Z) : Z :=
  match r mod 11 with
  | 0 => u32 (a + b)
  | 1 => u32 (a * b)
  | 2 => u32 (Z.shiftr (u64 (a * b)) 32)
  | 3 => if a <? b then a else b
  | 4 => rotl32 a (Z.land b 31)
  | 5 => rotr32 a (Z.land b 31)
  | 6 => Z.land a b
  | 7 => Z.lor a b
  | 8 => Z.lxor a b
  | 9 => u32 (builtin_clz (Z.lor a 1) + builtin_clz (Z.lor b 1))
  | 10 => u32 (builtin_popcount a + builtin_popcount b)
  | _ => u32 (a + b)
  end.

Definition kawpow_merge (a b r : Z) : Z :=
  match r mod 4 with
  | 0 => u32 (u32 (a * 33) + b)
  | 1 => u32 (Z.lxor a b * 33)
  | 2 => Z.lxor (rotl32 a (shr32 r 16 mod 31 + 1)) b
  | 3 => Z.lxor (rotr32 a (shr32 r 16 mod 31 + 1)) b
  | _ => u32 (u32 (a * 33) + b)
  end.

(** The same operators under the C abstract machine, where a shift of a
    32-bit value by 32 or more positions has no defined result: [None]
    stands for an execution that performs such a shift. *)
Module Strict.

Definition shift_ok (n : Z) : bool := (0 <=? n) && (n <? 32).

Definition shl (x n : Z) : option Z :=
  if shift_ok n then Some (shl32 x n) else None.
Definition shr (x n : Z) : option Z :=
  if shift_ok n then Some (shr32 x n) else None.

Definition rotl32 (x n : Z) : option Z :=
  match shl x n, shr x (32 - n) with
  | Some hi, Some lo => Some (Z.lor hi lo)
  | _, _ => None
  end.

Definition rotr32 (x n : Z) : option Z :=
  match shr x n, shl x (32 - n) with
  | Some lo, Some hi => Some (Z.lor lo hi)
  | _, _ => None
  end.

Definition kawpow_math (a b r : Z) : option Z :=
  match r mod 11 with
  | 4 => rotl32 a (Z.land b 31)
  | 5 => rotr32 a (Z.land b 31)
  | _ => Some (kawpow_math a b r)
  end.

Definition kawpow_merge (a b r : Z) : option Z :=
  match r mod 4 with
  | 2 => option_map (fun x => Z.lxor x b) (rotl32 a (shr32 r 16 mod 31 + 1))
  | 3 => option_map (fun x => Z.lxor x b) (rotr32 a (shr32 r 16 mod 31 + 1))
  | _ => Some (kawpow_merge a b r)
  end.

End Strict.

(** ** Arrays and the input buffer *)

(** [a[i]] and [a[i] = v] on an array of 32-bit words. *)
Definition get (a : list Z) (i : Z) : Z := default 0 (a !! Z.to_nat i).
Definition set (a : list Z) (i : Z) (v : Z) : list Z := <[Z.to_nat i := v]> a.

(** [for (i = lo; i < hi; i++) body] over a state of type [S]. *)
Definition for_range {S : Type} (lo hi : Z) (body : Z -> S -> S) (s : S) : S :=
  fold_left (fun s k => body (lo + Z.of_nat k) s) (seq 0 (Z.to_nat (hi - lo))) s.

(** The memory behind [const void *data]: the byte at each offset. *)
Definition buffer : Type := Z -> byte.

Definition byte_val (b : byte) : Z := Z.of_N (Byte.to_N b).
Definition byte_of (x : Z) : byte :=
  default x00 (Byte.of_N (Z.to_N (x mod 256))).

Definition buffer_of_list (l : list byte) : buffer :=
  fun i => default x00 (l !! Z.to_nat i).

(** [((const uint32_t * )data)[i]] on a little-endian machine. *)
Definition load32 (data : buffer) (i : Z) : Z :=
  Z.lor (byte_val (data (4 * i)))
    (Z.lor (Z.shiftl (byte_val (data (4 * i + 1))) 8)
       (Z.lor (Z.shiftl (byte_val (data (4 * i + 2))) 16)
          (Z.shiftl (byte_val (data (4 * i + 3))) 24))).

(** The four bytes of a 32-bit word in memory order. *)
Definition store32 (x : Z) : list byte :=
  [byte_of x; byte_of (Z.shiftr x 8); byte_of (Z.shiftr x 16);
   byte_of (Z.shiftr x 24)].

(** ** Lane initialisation and the permutation *)

Definition kiss99_seed (seed lane_id : Z) : kiss99_t :=
  let z0 := fnv1a FNV_OFFSET_BASIS (u32 seed) in
  let w0 := fnv1a z0 (u32 (Z.shiftr seed 32)) in
  let j0 := fnv1a w0 lane_id in
  let c0 := fnv1a j0 lane_id in
  Kiss99 z0 w0 j0 c0.

(** [n] successive draws, oldest first, and the generator afterwards. *)
Fixpoint kiss99_draw (n : nat) (st : kiss99_t) : list Z * kiss99_t :=
  match n with
  | O => ([], st)
  | S n' => let '(x, st1) := kiss99 st in
            let '(xs, st2) := kiss99_draw n' st1 in
            (x :: xs, st2)
  end.

Definition kawpow_fill_mix (seed lane_id : Z) : list Z :=
  fst (kiss99_draw (Z.to_nat KAWPOW_REGS) (kiss99_seed seed lane_id)).

Definition keccak_round (st : list Z) : list Z :=
  for_range 0 25
    (fun i st => set st i (Z.lxor (rotl32 (get st i) 1) (get st ((i + 1) mod 25))))
    st.

Definition keccak_f800_progpow (st : list Z) : list Z :=
  for_range 0 22 (fun _ st => keccak_round st) st.

(** ** The hash engine *)

(** The state the main loop mutates: the register file of every lane and the
    program generator. *)
Record hstate : Type := HState { mix : list (list Z); prog_rnd : kiss99_t }.

Definition M (A : Type) : Type := hstate -> A * hstate.
Definition ret {A : Type} (x : A) : M A := fun s => (x, s).
Definition bind {A B : Type} (c : M A) (k : A -> M B) : M B :=
  fun s => let '(x, s1) := c s in k x s1.

Notation "'let*' x ':=' c 'in' k" := (bind c (fun x => k))
  (at level 10, x name, c at level 100, k at level 200).
Notation "'do' c 'then' k" := (bind c (fun _ => k))
  (at level 10, c at level 100, k at level 200).

(** [kiss99(&prog_rnd)] *)
Definition rnd : M Z :=
  fun s => let '(x, r) := kiss99 (prog_rnd s) in (x, HState (mix s) r).

Definition row (m : list (list Z)) (l : Z) : list Z :=
  default [] (m !! Z.to_nat l).

(** [mix[l][i]] and [mix[l][i] = v] *)
Definition reg (l i : Z) : M Z := fun s => (get (row (mix s) l) i, s).
Definition set_reg (l i v : Z) : M unit :=
  fun s => (tt, HState (<[Z.to_nat l := set (row (mix s) l) i v]> (mix s))
                       (prog_rnd s)).

Definition for_ (lo hi : Z) (body : Z -> M unit) : M unit :=
  fun s => (tt, for_range lo hi (fun i s => snd (body i s)) s).

Definition when_ (c : bool) (body : M unit) : M unit :=
  if c then body else ret tt.

(** The generator of the program, seeded as the code seeds it from
    [prog_seed]. *)
Definition prog_rnd_init (prog_seed : Z) : kiss99_t :=
  let z0 := fnv1a FNV_OFFSET_BASIS (u32 prog_seed) in
  let w0 := fnv1a z0 (u32 (Z.shiftr prog_seed 32)) in
  let j0 := fnv1a w0 (u32 prog_seed) in
  let c0 := fnv1a j0 (u32 (Z.shiftr prog_seed 32)) in
  Kiss99 z0 w0 j0 c0.

(** [uint64_t prog_seed = 1;] *)
Definition prog_seed : Z := 1.

(** [dag_data[l][i]] of one outer iteration, read off the register files as
    they are when the iteration starts. *)
Definition dag_data (m : list (list Z)) (loop : Z) : list (list Z) :=
  map (fun l => map (fun i => fnv1a (get (row m l) 0)
                                (u32 (loop * KAWPOW_LANES + l + i)))
                    (map Z.of_nat (seq 0 (Z.to_nat KAWPOW_DAG_LOADS))))
      (map Z.of_nat (seq 0 (Z.to_nat KAWPOW_LANES))).

Definition math_op : M unit :=
  let* r1 := rnd in let src1 := r1 mod KAWPOW_REGS in
  let* r2 := rnd in let src2 := r2 mod KAWPOW_REGS in
  let* r3 := rnd in let dst := r3 mod KAWPOW_REGS in
  let* sel1 := rnd in
  let* sel2 := rnd in
  for_ 0 KAWPOW_LANES (fun l =>
    let* a := reg l src1 in
    let* b := reg l src2 in
    let math_result := kawpow_math a b sel1 in
    let* d := reg l dst in
    set_reg l dst (kawpow_merge d math_result sel2)).

Definition cache_op : M unit :=
  let* r1 := rnd in let src := r1 mod KAWPOW_REGS in
  let* r2 := rnd in let dst := r2 mod KAWPOW_REGS in
  let* sel := rnd in
  for_ 0 KAWPOW_LANES (fun l =>
    let* a := reg l src in
    let cache_data := fnv1a a sel in
    let* d := reg l dst in
    set_reg l dst (kawpow_merge d cache_data sel)).

Definition dag_merge (dag : list (list Z)) (i : Z) : M unit :=
  let* dst := (if i =? 0 then ret 0
               else (let* r := rnd in ret (r mod KAWPOW_REGS))) in
  let* sel := rnd in
  for_ 0 KAWPOW_LANES (fun l =>
    let* d := reg l dst in
    set_reg l dst (kawpow_merge d (get (row dag l) i) sel)).

Definition main_loop : M unit :=
  for_ 0 KAWPOW_CNT_DAG (fun loop =>
    let* dag := (fun s => (dag_data (mix s) loop, s)) in
    let max_ops := if KAWPOW_CNT_MATH <? KAWPOW_CNT_CACHE
                   then KAWPOW_CNT_CACHE else KAWPOW_CNT_MATH in
    do for_ 0 max_ops (fun i =>
         do when_ (i <? KAWPOW_CNT_MATH) math_op
         then when_ (i <? KAWPOW_CNT_CACHE) cache_op)
    then for_ 0 KAWPOW_DAG_LOADS (dag_merge dag)).

(** The sponge state after the absorb loop:
    [for (i = 0; i < input_words && i < 18; i++) keccak_state[i] = input32[i]] *)
Definition absorb (words : Z) (data : buffer) (length : Z) : list Z :=
  let input_words := to_int (length / 4) in
  for_range 0 (Z.min input_words words)
    (fun i st => set st i (load32 data i)) (replicate 25 0).

Definition lane_digest (regs : list Z) : Z :=
  for_range 0 KAWPOW_REGS (fun i d => fnv1a d (get regs i)) FNV_OFFSET_BASIS.

Definition final_digest (digest_lane : list Z) : list Z :=
  for_range 0 KAWPOW_LANES
    (fun l fd => set fd (l mod 8) (fnv1a (get fd (l mod 8)) (get digest_lane l)))
    (replicate 8 FNV_OFFSET_BASIS).

Definition kawpow_slow_hash (seedhash : list byte) (data : buffer) (length : Z)
  : list byte :=
  let keccak_state := keccak_f800_progpow (absorb 18 data length) in
  let seed := Z.lor (Z.shiftl (get keccak_state 0) 32) (get keccak_state 1) in
  let mix0 := map (fun l => kawpow_fill_mix seed l)
                  (map Z.of_nat (seq 0 (Z.to_nat KAWPOW_LANES))) in
  let s := snd (main_loop (HState mix0 (prog_rnd_init prog_seed))) in
  let digest_lane := map lane_digest (mix s) in
  let fd := final_digest digest_lane in
  let st1 := absorb 8 data length in
  let st2 := set st1 8 (u32 seed) in
  let st3 := set st2 9 (u32 (Z.shiftr seed 32)) in
  let st4 := for_range 0 8 (fun i st => set st (10 + i) (get fd i)) st3 in
  take (Z.to_nat HASH_SIZE) (flat_map store32 (keccak_f800_progpow st4)).

(** ** Seed heights *)

Definition kawpow_seedheight (height : Z) : Z :=
  u64 (u64 (height / KAWPOW_EPOCH_LENGTH) * KAWPOW_EPOCH_LENGTH).

(** The pair written to [*seed_height] and [*next_height]. *)
Definition kawpow_seedheights (height : Z) : Z * Z :=
  let seed_height := kawpow_seedheight height in
  (seed_height, u64 (seed_height + KAWPOW_EPOCH_LENGTH)).

(** ** File-level variables and the exported functions *)

(** Modelled from the spec: the lock and logging macros come from
    c_threads.h and misc_log_ex.h, which are not among the sources.  Taking
    and releasing the write lock of section 5 and emitting a diagnostic are
    recorded as events, in program order. *)
Inductive event : Type :=
| LockWrite                 (* CTHR_RWLOCK_LOCK_WRITE(main_cache_lock) *)
| UnlockWrite               (* CTHR_RWLOCK_UNLOCK_WRITE(main_cache_lock) *)
| Info (msg : string).      (* minfo(KAWPOW_LOGCAT, ...) *)

(** [main_dataset] and [main_cache] are pointers: [None] is [NULL], [Some c]
    a pointer to memory holding [c]. *)
Record globals : Type := Globals {
  main_dataset : option (list byte);
  main_cache : option (list byte);
  main_seedhash : list byte;
  main_seedhash_set : Z;
  main_cache_locked : bool;
  miner_thread : Z;
  trace : list event
}.

(** The variables as the C initialisers leave them. *)
Definition initial_globals : globals :=
  Globals None None (replicate (Z.to_nat HASH_SIZE) x00) 0 false 0 [].

#[global] Instance byte_eq_decision : EqDecision byte := Byte.byte_eq_dec.

Definition is_main (seedhash : list byte) (g : globals) : bool :=
  negb (main_seedhash_set g =? 0)
  && bool_decide (take (Z.to_nat HASH_SIZE) seedhash = main_seedhash g).

Definition hex_digit (n : Z) : ascii :=
  nth (Z.to_nat n) (list_ascii_of_string "0123456789abcdef") "0"%char.

Definition hash2hex (hash : list byte) : string :=
  string_of_list_ascii
    (flat_map (fun b => [hex_digit (Z.shiftr (byte_val b) 4);
                         hex_digit (Z.land (byte_val b) 15)])
              (take (Z.to_nat HASH_SIZE) hash)).

Definition emit (e : event) (g : globals) : globals :=
  Globals (main_dataset g) (main_cache g) (main_seedhash g)
    (main_seedhash_set g) (main_cache_locked g) (miner_thread g)
    (trace g ++ [e]).

Definition lock_write (g : globals) : globals :=
  emit LockWrite
    (Globals (main_dataset g) (main_cache g) (main_seedhash g)
       (main_seedhash_set g) true (miner_thread g) (trace g)).

Definition unlock_write (g : globals) : globals :=
  emit UnlockWrite
    (Globals (main_dataset g) (main_cache g) (main_seedhash g)
       (main_seedhash_set g) false (miner_thread g) (trace g)).

(** [memcpy(main_seedhash, seedhash, HASH_SIZE); main_seedhash_set = 1;] *)
Definition store_seedhash (seedhash : list byte) (g : globals) : globals :=
  Globals (main_dataset g) (main_cache g)
    (take (Z.to_nat HASH_SIZE) seedhash) 1
    (main_cache_locked g) (miner_thread g) (trace g).

Definition kawpow_set_main_seedhash
    (seedhash : list byte) (max_dataset_init_threads : Z) (g : globals)
  : globals :=
  let g1 := lock_write g in
  let g2 := store_seedhash seedhash g1 in
  let hex_string := hash2hex seedhash in
  let g3 := emit (Info ("KawPow new main seed hash is " ++ hex_string)) g2 in
  unlock_write g3.

Definition kawpow_set_miner_thread
    (value : Z) (max_dataset_init_threads : Z) (g : globals) : globals :=
  Globals (main_dataset g) (main_cache g) (main_seedhash g)
    (main_seedhash_set g) (main_cache_locked g) value (trace g).

Definition kawpow_get_miner_thread (g : globals) : Z := miner_thread g.

Definition kawpow_slow_hash_allocate_state (g : globals) : globals :=
  emit (Info "KawPow state allocation - using GPU-optimized mining") g.

Definition kawpow_slow_hash_free_state (g : globals) : globals :=
  emit (Info "KawPow state freed") g.

(** A call of one of the exported functions, and what it leaves behind:
    the value it hands back and the file-level variables afterwards. *)
Inductive call : Type :=
| SlowHash (seedhash : list byte) (data : buffer) (length : Z)
| AllocateState
| FreeState
| SetMainSeedhash (seedhash : list byte) (threads : Z)
| SetMinerThread (value threads : Z)
| GetMinerThread.

Inductive reply : Type :=
| Digest (result_hash : list byte)
| Word (v : Z)
| Void.

Definition exec (c : call) (g : globals) : reply * globals :=
  match c with
  | SlowHash seedhash data length =>
      (Digest (kawpow_slow_hash seedhash data length), g)
  | AllocateState => (Void, kawpow_slow_hash_allocate_state g)
  | FreeState => (Void, kawpow_slow_hash_free_state g)
  | SetMainSeedhash seedhash threads =>
      (Void, kawpow_set_main_seedhash seedhash threads g)
  | SetMinerThread value threads =>
      (Void, kawpow_set_miner_thread value threads g)
  | GetMinerThread => (Word (kawpow_get_miner_thread g), g)
  end.

(** The variables after a sequence of calls. *)
Definition run (cs : list call) (g : globals) : globals :=
  fold_left (fun g c => snd (exec c g)) cs g.

(** ** The operators as the specification words them *)

(** The number whose bit [i], for [i < k], is [f i]. *)
Fixpoint of_bits (f : Z -> bool) (k : nat) : Z :=
  match k with
  | O => 0
  | S k' => let r := of_bits f k' in
            if f (Z.of_nat k') then Z.setbit r (Z.of_nat k') else r
  end.

(** Rotation of a 32-bit word: bit [i] of the result is bit [i - n] (left)
    or bit [i + n] (right) of the operand, positions taken modulo 32. *)
Definition rotate_left (a n : Z) : Z :=
  of_bits (fun i => Z.testbit a ((i - n) mod 32)) 32.
Definition rotate_right (a n : Z) : Z :=
  of_bits (fun i => Z.testbit a ((i + n) mod 32)) 32.

(** Zero bits above the highest set bit among the low [k] bits; [k] when
    none of them is set. *)
Fixpoint leading_zeros (k : nat) (a : Z) : Z :=
  match k with
  | O => 0
  | S k' => if Z.testbit a (Z.of_nat k') then 0 else 1 + leading_zeros k' a
  end.

(** Set bits among the low [k] bits. *)
Fixpoint popcount (k : nat) (a : Z) : Z :=
  match k with
  | O => 0
  | S k' => a mod 2 + popcount k' (a / 2)
  end.

(** [mathOp] of section 4.2, with the leading-zero count left open. *)
Definition mathOp_with (clz : Z -> Z) (a b selector : Z) : Z :=
  match selector mod 11 with
  | 0 => (a + b) mod 2 ^ 32
  | 1 => (a * b) mod 2 ^ 32
  | 2 => (a * b) / 2 ^ 32
  | 3 => Z.min a b
  | 4 => rotate_left a (b mod 32)
  | 5 => rotate_right a (b mod 32)
  | 6 => Z.land a b
  | 7 => Z.lor a b
  | 8 => Z.lxor a b
  | 9 => clz a + clz b
  | _ => popcount 32 a + popcount 32 b
  end.

(** As the specification states it: plain 32-bit leading-zero counts. *)
Definition mathOp : Z -> Z -> Z -> Z := mathOp_with (leading_zeros 32).

(** With the leading-zero count taken after setting the lowest bit. *)
Definition mathOp_clz_or1 : Z -> Z -> Z -> Z :=
  mathOp_with (fun x => leading_zeros 32 (Z.lor x 1)).

(** [mergeOp] of section 4.2. *)
Definition mergeOp (a b selector : Z) : Z :=
  match selector mod 4 with
  | 0 => (a * 33 + b) mod 2 ^ 32
  | 1 => (Z.lxor a b * 33) mod 2 ^ 32
  | 2 => Z.lxor (rotate_left a ((selector / 2 ^ 16) mod 31 + 1)) b
  | _ => Z.lxor (rotate_right a ((selector / 2 ^ 16) mod 31 + 1)) b
  end.

(** ** Properties the claims speak of *)

(** Two states hold the same words at the positions below [n]. *)
Definition agree (n : Z) (s t : list Z) : Prop :=
  forall i, 0 <= i < n -> get s i = get t i.

(** The whole little-endian 32-bit words of a byte string; bytes after the
    last whole word belong to no word. *)
Fixpoint words_le (bytes : list byte) : list Z :=
  match bytes with
  | b0 :: b1 :: b2 :: b3 :: rest =>
      (byte_val b0 + 2 ^ 8 * byte_val b1 + 2 ^ 16 * byte_val b2
       + 2 ^ 24 * byte_val b3) :: words_le rest
  | _ => []
  end.

(** The absorbed state as section 4.3 words it: the first 18 words of the
    header, zero-padded to 18 words, in a 25-word state that is zero
    elsewhere. *)
Definition absorb_spec (bytes : list byte) : list Z :=
  take 18 (words_le bytes ++ replicate 18 0) ++ replicate 7 0.

(** An output bit of the permutation, numbered through the 25 words. *)
Definition output_bit (st : list Z) (p : Z) : bool :=
  Z.testbit (get st (p / 32)) (p mod 32).

(** Two well-formed states that differ at most in word [j]. *)
Definition differ_only_at (j : Z) (s t : list Z) : Prop :=
  length s = 25%nat /\ length t = 25%nat
  /\ Forall is_u32 s /\ Forall is_u32 t
  /\ forall i, 0 <= i -> i <> j -> get s i = get t i.

(** Full diffusion of the permutation: every output bit depends on every
    input word. *)
Definition full_diffusion : Prop :=
  forall j p, 0 <= j < 25 -> 0 <= p < 800 ->
    exists s t, differ_only_at j s t
      /\ output_bit (keccak_f800_progpow s) p
         <> output_bit (keccak_f800_progpow t) p.

(** [periodIndex = floor(height / PERIOD)] of section 4.6. *)
Definition period_index (height : Z) : Z := height / KAWPOW_PERIOD.

(** The five draws that make up the first instruction of a program:
    two sources, the destination and the two selectors. *)
Definition first_instruction (rnd0 : kiss99_t) : list Z :=
  fst (kiss99_draw 5 rnd0).

(** What the epoch manager publishes: the seed hash with its flag, and the
    two memories. *)
Definition epoch_state (g : globals)
  : Z * list byte * option (list byte) * option (list byte) :=
  (main_seedhash_set g, main_seedhash g, main_cache g, main_dataset g).

(** The published Cache and Dataset are the ones built from the published
    seed hash, for given build functions. *)
Definition published_consistent
    (build_cache : list byte -> list byte)
    (build_dataset : list byte -> list byte) (g : globals) : Prop :=
  main_cache g = Some (build_cache (main_seedhash g))
  /\ main_dataset g = Some (build_dataset (build_cache (main_seedhash g))).

(** ** Notions for the further properties *)

(** A well-formed state of the permutation: 25 words of 32 bits. *)
Definition sponge_state (st : list Z) : Prop :=
  length st = 25%nat /\ Forall is_u32 st.

(** Word-wise exclusive or of two states. *)
Definition xor_state (s t : list Z) : list Z := zip_with Z.lxor s t.

(** [f] sends a state to the one whose word [i], up to position [B], is
    word [i] rotated left by [k] xor word [i + k]. *)
Definition shift_form (k B : Z) (f : list Z -> list Z) : Prop :=
  forall s, sponge_state s ->
    sponge_state (f s)
    /\ forall i, 0 <= i <= B ->
         get (f s) i = Z.lxor (rotl32 (get s i) k) (get s (i + k)).

(** Two, four, eight and sixteen rounds of the permutation. *)
Definition round2 (s : list Z) : list Z := keccak_round (keccak_round s).
Definition round4 (s : list Z) : list Z := round2 (round2 s).
Definition round8 (s : list Z) : list Z := round4 (round4 s).
Definition round16 (s : list Z) : list Z := round8 (round8 s).

(** The word count the two absorb loops of [kawpow_slow_hash] run to, at
    most [words]. *)
Definition absorbed_words (words length : Z) : Z :=
  Z.min (to_int (length / 4)) words.

(** The shape the main loop works on: one row of [KAWPOW_REGS] 32-bit
    registers per lane, and a generator whose shift register is a 32-bit
    word. *)
Definition mix_shape (s : hstate) : Prop :=
  length (mix s) = Z.to_nat KAWPOW_LANES
  /\ Forall (fun regs => length regs = Z.to_nat KAWPOW_REGS
                         /\ Forall is_u32 regs) (mix s)
  /\ is_u32 (jsr (prog_rnd s)).

(** A step of the main loop keeps the shape and hands back a value that
    satisfies [Q]. *)
Definition keeps_shape {A : Type} (c : M A) (Q : A -> Prop) : Prop :=
  forall s, mix_shape s -> Q (fst (c s)) /\ mix_shape (snd (c s)).

(** The value of a lower-case hexadecimal digit, and the byte two digits
    spell. *)
Definition hex_val (c : ascii) : Z :=
  let n := Z.of_N (N_of_ascii c) in if n <? 58 then n - 48 else n - 87.

Definition hex_byte (hi lo : ascii) : byte :=
  byte_of (16 * hex_val hi + hex_val lo).

(** What every exported function finds and leaves: the lock is free, the
    stored seed hash has [HASH_SIZE] bytes, and the flag is 0 or 1. *)
Definition globals_ok (g : globals) : Prop :=
  main_cache_locked g = false
  /\ length (main_seedhash g) = Z.to_nat HASH_SIZE
  /\ (main_seedhash_set g = 0 \/ main_seedhash_set g = 1).

(** A call whose seed hash argument points to at least [HASH_SIZE] bytes. *)
Definition call_ok (c : call) : Prop :=
  match c with
  | SetMainSeedhash seedhash _ => (Z.to_nat HASH_SIZE <= length seedhash)%nat
  | _ => True
  end.

(** ** The cache of the external library, [external/kawpow/kawpow.cpp] *)

(** [struct kawpow_cache_struct]: the data pointer ([None] is a null
    pointer) and the size in bytes. *)
Record kawpow_cache_struct : Type := KawpowCache {
  cache_data : option buffer;
  cache_size : Z
}.

(** [memset(p, 0, n)], [memcpy(p, src, n)] and [*(uint32_t * )(p + off) = v]
    on the memory behind a pointer. *)
Definition memset0 (p : buffer) (n : Z) : buffer :=
  fun j => if (0 <=? j) && (j <? n) then x00 else p j.
Definition memcpy (p src : buffer) (n : Z) : buffer :=
  fun j => if (0 <=? j) && (j <? n) then src j else p j.
Definition write32 (p : buffer) (off v : Z) : buffer :=
  fun j => if (off <=? j) && (j <? off + 4)
           then nth (Z.to_nat (j - off)) (store32 v) x00 else p j.

(** [kawpow_init_cache(cache, key, keySize)]: the cache afterwards.  The
    loop [for (i = 0; i < size; i += 32)] is run over its iteration count,
    with [i = 32 * k]. *)
Definition kawpow_init_cache
    (cache : option kawpow_cache_struct) (key : option buffer) (keySize : Z)
  : option kawpow_cache_struct :=
  match cache with
  | None => None
  | Some c =>
      match cache_data c with
      | None => Some c
      | Some d =>
          let size := cache_size c in
          let d1 := memset0 d size in
          let d2 := match key with
                    | Some k =>
                        if 0 <? keySize
                        then let copySize :=
                               if keySize <? size then keySize else size in
                             memcpy d1 k copySize
                        else d1
                    | None => d1
                    end in
          let d3 := for_range 0 ((size + 31) / 32)
                      (fun k p => write32 p (32 * k)
                                    (u32 (Z.lxor (32 * k) 0xCAFEBABE)))
                      d2 in
          Some (KawpowCache (Some d3) size)
      end
  end.

(** The byte the fill pattern puts at offset [j] of a 32-byte block start. *)
Definition cache_pattern (j : Z) : byte :=
  nth (Z.to_nat (j mod 32))
      (store32 (u32 (Z.lxor (j - j mod 32) 0xCAFEBABE))) x00.

(** ** Facts on machine integers and bits *)

Lemma u32_range x : is_u32 (u32 x).
Proof. unfold is_u32, u32. apply Z.mod_pos_bound. lia. Qed.

Lemma u32_small x : is_u32 x -> u32 x = x.
Proof. unfold is_u32, u32. intros. apply Z.mod_small. lia. Qed.

Lemma u32_testbit x i :
  Z.testbit (u32 x) i = (i <? 32) && Z.testbit x i.
Proof.
  unfold u32. destruct (Z.ltb_spec i 32).
  - destruct (Z.neg_nonneg_cases i).
    + rewrite !Z.testbit_neg_r by lia. reflexivity.
    + rewrite Z.mod_pow2_bits_low by lia. reflexivity.
  - rewrite Z.mod_pow2_bits_high by lia. reflexivity.
Qed.

Lemma is_u32_testbit_high x i : is_u32 x -> 32 <= i -> Z.testbit x i = false.
Proof.
  intros Hx Hi. rewrite <- (u32_small x Hx), u32_testbit.
  destruct (Z.ltb_spec i 32); [lia | reflexivity].
Qed.

Lemma is_u32_of_bits x :
  0 <= x -> (forall i, 32 <= i -> Z.testbit x i = false) -> is_u32 x.
Proof.
  intros H0 Hb. split; [assumption|].
  destruct (Z.eq_dec x 0) as [-> | Hne]; [lia|].
  apply Z.log2_lt_pow2; [lia|].
  destruct (Z.lt_ge_cases (Z.log2 x) 32) as [|Hge]; [assumption|].
  specialize (Hb _ Hge). rewrite Z.bit_log2 in Hb by lia. discriminate.
Qed.

Lemma of_bits_nonneg f k : 0 <= of_bits f k.
Proof.
  induction k as [|k IH]; cbn [of_bits]; [lia|].
  destruct (f (Z.of_nat k)); [|assumption].
  rewrite Z.setbit_spec'. apply Z.lor_nonneg. split; [assumption|].
  apply Z.pow_nonneg. lia.
Qed.

Lemma of_bits_testbit f k i :
  0 <= i -> Z.testbit (of_bits f k) i = (i <? Z.of_nat k) && f i.
Proof.
  intros Hi. induction k as [|k IH]; cbn [of_bits].
  - rewrite Z.bits_0. destruct (Z.ltb_spec i (Z.of_nat 0)); [lia|reflexivity].
  - assert (E : Z.testbit (if f (Z.of_nat k)
                           then Z.setbit (of_bits f k) (Z.of_nat k)
                           else of_bits f k) i
              = (i =? Z.of_nat k) && f (Z.of_nat k) || Z.testbit (of_bits f k) i).
    { destruct (f (Z.of_nat k)).
      - rewrite Z.setbit_eqb by lia. rewrite Z.eqb_sym.
        destruct (i =? Z.of_nat k); reflexivity.
      - destruct (i =? Z.of_nat k); reflexivity. }
    rewrite E, IH. clear E IH.
    destruct (Z.eqb_spec i (Z.of_nat k)) as [-> | Hne].
    + destruct (Z.ltb_spec (Z.of_nat k) (Z.of_nat (S k))); [|lia].
      destruct (Z.ltb_spec (Z.of_nat k) (Z.of_nat k)); [lia|].
      destruct (f (Z.of_nat k)); reflexivity.
    + destruct (Z.ltb_spec i (Z.of_nat k)), (Z.ltb_spec i (Z.of_nat (S k)));
        try lia; reflexivity.
Qed.

Lemma of_bits_is_u32 f : is_u32 (of_bits f 32).
Proof.
  apply is_u32_of_bits; [apply of_bits_nonneg|].
  intros i Hi. rewrite of_bits_testbit by lia.
  destruct (Z.ltb_spec i (Z.of_nat 32)); [lia | reflexivity].
Qed.

(** ** The rotate helpers compute rotations *)

Lemma rotl32_testbit a n i :
  is_u32 a -> 0 <= n < 32 -> 0 <= i ->
  Z.testbit (rotl32 a n) i = (i <? 32) && Z.testbit a ((i - n) mod 32).
Proof.
  intros Ha Hn Hi. unfold rotl32, shl32, shr32.
  rewrite Z.lor_spec, u32_testbit, Z.shiftl_spec, Z.shiftr_spec by lia.
  destruct (Z.ltb_spec i 32) as [Hlt|Hge]; cbn [andb].
  - destruct (Z.lt_ge_cases i n).
    + rewrite (Z.testbit_neg_r a (i - n)) by lia. cbn [orb].
      f_equal. symmetry.
      rewrite <- (Z.mod_small (i + (32 - n)) 32) by lia.
      replace (i + (32 - n)) with (i - n + 1 * 32) by lia.
      now rewrite Z.mod_add by lia.
    + rewrite (is_u32_testbit_high a (i + (32 - n))) by (assumption || lia).
      rewrite orb_false_r. f_equal. symmetry. apply Z.mod_small. lia.
  - apply is_u32_testbit_high; [assumption | lia].
Qed.

Lemma rotr32_testbit a n i :
  is_u32 a -> 0 <= n < 32 -> 0 <= i ->
  Z.testbit (rotr32 a n) i = (i <? 32) && Z.testbit a ((i + n) mod 32).
Proof.
  intros Ha Hn Hi. unfold rotr32, shl32, shr32.
  rewrite Z.lor_spec, u32_testbit, Z.shiftl_spec, Z.shiftr_spec by lia.
  destruct (Z.ltb_spec i 32) as [Hlt|Hge]; cbn [andb].
  - destruct (Z.lt_ge_cases (i + n) 32).
    + rewrite (Z.testbit_neg_r a (i - (32 - n))) by lia.
      rewrite orb_false_r. f_equal. symmetry. apply Z.mod_small. lia.
    + rewrite (is_u32_testbit_high a (i + n)) by (assumption || lia).
      cbn [orb]. f_equal. symmetry.
      rewrite <- (Z.mod_small (i - (32 - n)) 32) by lia.
      replace (i - (32 - n)) with (i + n + (-1) * 32) by lia.
      now rewrite Z.mod_add by lia.
  - rewrite orb_false_r. apply is_u32_testbit_high; [assumption | lia].
Qed.



Lemma rotl32_rotate_left a n :
  is_u32 a -> 0 <= n < 32 -> rotl32 a n = rotate_left a n.
Proof.
  intros Ha Hn. apply Z.bits_inj'. intros i Hi.
  unfold rotate_left. rewrite of_bits_testbit, rotl32_testbit by assumption.
  reflexivity.
Qed.

Lemma rotr32_rotate_right a n :
  is_u32 a -> 0 <= n < 32 -> rotr32 a n = rotate_right a n.
Proof.
  intros Ha Hn. apply Z.bits_inj'. intros i Hi.
  unfold rotate_right. rewrite of_bits_testbit, rotr32_testbit by assumption.
  reflexivity.
Qed.

(** A processor that reduces the shift count modulo the word size computes
    the same rotation, also for a count of zero. *)
Lemma rotl32_masked_count a n :
  is_u32 a -> 0 <= n < 32 ->
  Z.lor (shl32 a (n mod 32)) (shr32 a ((32 - n) mod 32)) = rotl32 a n.
Proof.
  intros Ha Hn. destruct (Z.eq_dec n 0) as [-> | Hne].
  - change ((32 - 0) mod 32) with 0. change (0 mod 32) with 0.
    unfold rotl32, shl32, shr32. change (32 - 0) with 32.
    rewrite Z.shiftl_0_r, Z.shiftr_0_r, (u32_small a Ha).
    rewrite (Z.shiftr_div_pow2 a 32) by lia.
    rewrite (Z.div_small a (2 ^ 32)) by apply Ha.
    rewrite Z.lor_0_r. apply Z.lor_diag.
  - rewrite !Z.mod_small by lia. reflexivity.
Qed.

Lemma rotr32_masked_count a n :
  is_u32 a -> 0 <= n < 32 ->
  Z.lor (shr32 a (n mod 32)) (shl32 a ((32 - n) mod 32)) = rotr32 a n.
Proof.
  intros Ha Hn. destruct (Z.eq_dec n 0) as [-> | Hne].
  - change ((32 - 0) mod 32) with 0. change (0 mod 32) with 0.
    unfold rotr32, shl32, shr32. change (32 - 0) with 32.
    rewrite Z.shiftl_0_r, Z.shiftr_0_r, (u32_small a Ha).
    assert (E : u32 (Z.shiftl a 32) = 0).
    { unfold u32. rewrite Z.shiftl_mul_pow2 by lia. apply Z.mod_mul. lia. }
    rewrite E, Z.lor_0_r. apply Z.lor_diag.
  - rewrite !Z.mod_small by lia. reflexivity.
Qed.

(** ** The compiler builtins count bits *)

Lemma testbit_false_below x k :
  0 <= k -> 0 <= x < 2 ^ (k + 1) -> Z.testbit x k = false -> x < 2 ^ k.
Proof.
  intros Hk Hx Hb. rewrite Z.testbit_eqb in Hb by lia.
  assert (Hp : 0 < 2 ^ k) by (apply Z.pow_pos_nonneg; lia).
  assert (Hq : x / 2 ^ k < 2).
  { apply Z.div_lt_upper_bound; [lia|].
    replace (2 ^ k * 2) with (2 ^ (k + 1)); [lia|].
    rewrite Z.pow_add_r by lia. lia. }
  assert (Hq0 : 0 <= x / 2 ^ k) by (apply Z.div_pos; lia).
  assert (E : x / 2 ^ k = 0).
  { destruct (Z.eq_dec (x / 2 ^ k) 0) as [|Hne]; [assumption|].
    replace (x / 2 ^ k) with 1 in Hb by lia. discriminate. }
  apply Z.div_small_iff in E; lia.
Qed.

Lemma leading_zeros_log2 k x :
  0 < x < 2 ^ Z.of_nat k -> leading_zeros k x = Z.of_nat k - 1 - Z.log2 x.
Proof.
  revert x. induction k as [|k IH]; intros x Hx.
  - change (2 ^ Z.of_nat 0) with 1 in Hx. lia.
  - cbn [leading_zeros]. destruct (Z.testbit x (Z.of_nat k)) eqn:Hb.
    + assert (Z.log2 x = Z.of_nat k); [|lia].
      apply Z.log2_unique; [lia|]. split.
      * destruct (Z.lt_ge_cases x (2 ^ Z.of_nat k)) as [Hlt|]; [|assumption].
        rewrite (Z.bits_above_log2 x (Z.of_nat k)) in Hb; [discriminate|lia|].
        apply Z.log2_lt_pow2; lia.
      * replace (Z.of_nat k + 1) with (Z.of_nat (S k)) by lia. lia.
    + assert (x < 2 ^ Z.of_nat k).
      { apply testbit_false_below; [lia| |assumption].
        replace (Z.of_nat k + 1) with (Z.of_nat (S k)) by lia. lia. }
      rewrite IH by lia. lia.
Qed.

Lemma builtin_clz_leading_zeros x :
  is_u32 x -> 0 < x -> builtin_clz x = leading_zeros 32 x.
Proof.
  intros Hx H0. unfold builtin_clz. rewrite leading_zeros_log2.
  - reflexivity.
  - unfold is_u32 in Hx. change (Z.of_nat 32) with 32. lia.
Qed.

Lemma count_bits_step x k :
  0 <= x ->
  Z.of_nat (length (List.filter (fun i => Z.testbit x (Z.of_nat i)) (seq 0 (S k))))
  = x mod 2
    + Z.of_nat (length (List.filter (fun i => Z.testbit (x / 2) (Z.of_nat i))
                               (seq 0 k))).
Proof.
  intros Hx. rewrite <- cons_seq, <- seq_shift. cbn [List.filter].
  assert (E : length (List.filter (fun i => Z.testbit x (Z.of_nat i))
                             (List.map S (seq 0 k)))
            = length (List.filter (fun i => Z.testbit (x / 2) (Z.of_nat i))
                             (seq 0 k))).
  { induction (seq 0 k) as [|j l IH]; [reflexivity|].
    cbn [List.map List.filter].
    replace (Z.testbit x (Z.of_nat (S j)))
      with (Z.testbit (x / 2) (Z.of_nat j)).
    - destruct (Z.testbit (x / 2) (Z.of_nat j)); cbn [length]; rewrite IH;
        reflexivity.
    - rewrite <- Z.div2_div, Z.div2_spec, Z.shiftr_spec by lia.
      f_equal. lia. }
  change (Z.of_nat 0) with 0. rewrite <- (Z.bit0_mod x).
  destruct (Z.testbit x 0); cbn [length Z.b2z]; rewrite E; lia.
Qed.

Lemma builtin_popcount_popcount x : 0 <= x -> builtin_popcount x = popcount 32 x.
Proof.
  unfold builtin_popcount. generalize 32%nat. intros k. revert x.
  induction k as [|k IH]; intros x Hx; [reflexivity|].
  rewrite count_bits_step by assumption. cbn [popcount].
  rewrite IH; [reflexivity|]. apply Z.div_pos; lia.
Qed.

Lemma popcount_bounds k x : 0 <= x -> 0 <= popcount k x <= Z.of_nat k.
Proof.
  revert x. induction k as [|k IH]; intros x Hx; cbn [popcount]; [lia|].
  pose proof (Z.mod_pos_bound x 2 ltac:(lia)).
  specialize (IH (x / 2) ltac:(apply Z.div_pos; lia)). lia.
Qed.

Lemma leading_zeros_bounds k x : 0 <= leading_zeros k x <= Z.of_nat k.
Proof.
  induction k as [|k IH]; cbn [leading_zeros]; [lia|].
  destruct (Z.testbit x (Z.of_nat k)); lia.
Qed.

(** ** Ranges of the operands the operators build *)

Lemma lor_is_u32 a b : is_u32 a -> is_u32 b -> is_u32 (Z.lor a b).
Proof.
  intros Ha Hb. apply is_u32_of_bits.
  - apply Z.lor_nonneg. split; [apply Ha | apply Hb].
  - intros i Hi. rewrite Z.lor_spec, !is_u32_testbit_high by assumption.
    reflexivity.
Qed.

Lemma lxor_is_u32 a b : is_u32 a -> is_u32 b -> is_u32 (Z.lxor a b).
Proof.
  intros Ha Hb. apply is_u32_of_bits.
  - apply Z.lxor_nonneg. split; intros _; [apply Hb | apply Ha].
  - intros i Hi. rewrite Z.lxor_spec, !is_u32_testbit_high by assumption.
    reflexivity.
Qed.


Lemma lor_1_pos a : 0 <= a -> 0 < Z.lor a 1.
Proof.
  intros Ha.
  assert (H0 : 0 <= Z.lor a 1) by (apply Z.lor_nonneg; lia).
  destruct (Z.eq_dec (Z.lor a 1) 0) as [E|]; [|lia].
  assert (Hb : Z.testbit (Z.lor a 1) 0 = true).
  { rewrite Z.lor_spec. change (Z.testbit 1 0) with true. apply orb_true_r. }
  rewrite E, Z.bits_0 in Hb. discriminate.
Qed.

Lemma is_u32_1 : is_u32 1.
Proof. unfold is_u32. lia. Qed.

Lemma land_31 b : 0 <= b -> Z.land b 31 = b mod 32.
Proof. intros Hb. change 31 with (Z.ones 5). now rewrite Z.land_ones by lia. Qed.

Lemma rotl32_is_u32 a n : is_u32 a -> 0 <= n < 32 -> is_u32 (rotl32 a n).
Proof.
  intros Ha Hn. rewrite rotl32_rotate_left by assumption. apply of_bits_is_u32.
Qed.

Lemma rotr32_is_u32 a n : is_u32 a -> 0 <= n < 32 -> is_u32 (rotr32 a n).
Proof.
  intros Ha Hn. rewrite rotr32_rotate_right by assumption. apply of_bits_is_u32.
Qed.

Lemma merge_amount r : 0 <= r -> 1 <= shr32 r 16 mod 31 + 1 < 32.
Proof.
  intros Hr. pose proof (Z.mod_pos_bound (shr32 r 16) 31 ltac:(lia)). lia.
Qed.

(** Case analysis on a selector reduced modulo a small constant. *)
Ltac split_selector k :=
  let Hsel := fresh "Hsel" in
  match goal with
  | H : 0 <= k < 11 |- _ =>
      assert (k = 0 \/ k = 1 \/ k = 2 \/ k = 3 \/ k = 4 \/ k = 5 \/ k = 6
              \/ k = 7 \/ k = 8 \/ k = 9 \/ k = 10) as Hsel by lia;
      clear H
  | H : 0 <= k < 4 |- _ =>
      assert (k = 0 \/ k = 1 \/ k = 2 \/ k = 3) as Hsel by lia; clear H
  end;
  repeat (destruct Hsel as [-> | Hsel]); [.. | subst k]; cbv beta iota.

Lemma kawpow_math_mathOp a b r :
  is_u32 a -> is_u32 b -> kawpow_math a b r = mathOp_clz_or1 a b r.
Proof.
  intros Ha Hb. unfold kawpow_math, mathOp_clz_or1, mathOp_with.
  pose proof (Z.mod_pos_bound r 11 ltac:(lia)) as Hm.
  remember (r mod 11) as k eqn:Ek. clear Ek. split_selector k.
  - reflexivity.
  - reflexivity.
  - unfold is_u32 in Ha, Hb.
    assert (0 <= a * b < 2 ^ 64) by nia.
    unfold u64. rewrite (Z.mod_small (a * b)) by assumption.
    rewrite Z.shiftr_div_pow2 by lia. apply u32_small. split.
    + apply Z.div_pos; lia.
    + apply Z.div_lt_upper_bound; lia.
  - destruct (Z.ltb_spec a b); lia.
  - rewrite land_31 by apply Hb. apply rotl32_rotate_left; [assumption|].
    apply Z.mod_pos_bound. lia.
  - rewrite land_31 by apply Hb. apply rotr32_rotate_right; [assumption|].
    apply Z.mod_pos_bound. lia.
  - reflexivity.
  - reflexivity.
  - reflexivity.
  - rewrite !builtin_clz_leading_zeros
      by (apply lor_is_u32; auto using is_u32_1) || (apply lor_1_pos; apply Ha)
         || (apply lor_1_pos; apply Hb).
    apply u32_small.
    pose proof (leading_zeros_bounds 32 (Z.lor a 1)).
    pose proof (leading_zeros_bounds 32 (Z.lor b 1)).
    unfold is_u32. lia.
  - rewrite !builtin_popcount_popcount by (apply Ha || apply Hb).
    apply u32_small.
    pose proof (popcount_bounds 32 a ltac:(apply Ha)).
    pose proof (popcount_bounds 32 b ltac:(apply Hb)).
    unfold is_u32. lia.
Qed.

Lemma kawpow_merge_mergeOp a b r :
  is_u32 a -> is_u32 b -> is_u32 r -> kawpow_merge a b r = mergeOp a b r.
Proof.
  intros Ha Hb Hr. unfold kawpow_merge, mergeOp.
  assert (Hamt : shr32 r 16 = r / 2 ^ 16)
    by (unfold shr32; apply Z.shiftr_div_pow2; lia).
  pose proof (merge_amount r ltac:(apply Hr)) as Hn.
  pose proof (Z.mod_pos_bound r 4 ltac:(lia)) as Hm.
  remember (r mod 4) as k eqn:Ek. clear Ek. split_selector k.
  - unfold u32. now rewrite Z.add_mod_idemp_l by lia.
  - reflexivity.
  - rewrite rotl32_rotate_left by (assumption || lia). now rewrite Hamt.
  - rewrite rotr32_rotate_right by (assumption || lia). now rewrite Hamt.
Qed.

Lemma kawpow_merge_is_u32 a b r :
  is_u32 a -> is_u32 b -> is_u32 r -> is_u32 (kawpow_merge a b r).
Proof.
  intros Ha Hb Hr. unfold kawpow_merge.
  pose proof (merge_amount r ltac:(apply Hr)) as Hn.
  pose proof (Z.mod_pos_bound r 4 ltac:(lia)) as Hm.
  remember (r mod 4) as k eqn:Ek. clear Ek. split_selector k;
    auto using u32_range, lxor_is_u32, rotl32_is_u32, rotr32_is_u32 with lia.
Qed.

Lemma strict_rotl32_defined a n :
  0 < n < 32 -> Strict.rotl32 a n = Some (rotl32 a n).
Proof.
  intros Hn. unfold Strict.rotl32, Strict.shl, Strict.shr, Strict.shift_ok.
  destruct (Z.leb_spec 0 n), (Z.ltb_spec n 32),
    (Z.leb_spec 0 (32 - n)), (Z.ltb_spec (32 - n) 32); try lia.
  reflexivity.
Qed.

Lemma strict_rotr32_defined a n :
  0 < n < 32 -> Strict.rotr32 a n = Some (rotr32 a n).
Proof.
  intros Hn. unfold Strict.rotr32, Strict.shl, Strict.shr, Strict.shift_ok.
  destruct (Z.leb_spec 0 n), (Z.ltb_spec n 32),
    (Z.leb_spec 0 (32 - n)), (Z.ltb_spec (32 - n) 32); try lia.
  reflexivity.
Qed.



Lemma strict_kawpow_merge_defined a b r :
  is_u32 r -> Strict.kawpow_merge a b r = Some (kawpow_merge a b r).
Proof.
  intros Hr. unfold Strict.kawpow_merge, kawpow_merge.
  pose proof (merge_amount r ltac:(apply Hr)) as Hn.
  pose proof (Z.mod_pos_bound r 4 ltac:(lia)) as Hm.
  remember (r mod 4) as k eqn:Ek. clear Ek. split_selector k.
  - reflexivity.
  - reflexivity.
  - rewrite strict_rotl32_defined by lia. reflexivity.
  - rewrite strict_rotr32_defined by lia. reflexivity.
Qed.

(** ** Loops and arrays *)

Lemma for_range_nil {S : Type} lo hi (body : Z -> S -> S) s :
  hi <= lo -> for_range lo hi body s = s.
Proof.
  intros H. unfold for_range. replace (Z.to_nat (hi - lo)) with 0%nat by lia.
  reflexivity.
Qed.

Lemma for_range_succ {S : Type} lo hi (body : Z -> S -> S) s :
  lo <= hi ->
  for_range lo (hi + 1) body s = body hi (for_range lo hi body s).
Proof.
  intros H. unfold for_range.
  replace (Z.to_nat (hi + 1 - lo)) with (Datatypes.S (Z.to_nat (hi - lo))) by lia.
  rewrite seq_S, fold_left_app. cbn [fold_left]. f_equal. lia.
Qed.

Lemma for_range_invariant {S : Type} (P : S -> Prop) lo hi body s :
  P s -> (forall i s, lo <= i < hi -> P s -> P (body i s)) ->
  P (for_range lo hi body s).
Proof.
  intros Hs Hstep. destruct (Z.le_gt_cases hi lo) as [Hle|Hgt].
  - now rewrite for_range_nil.
  - replace hi with (lo + Z.of_nat (Z.to_nat (hi - lo))) in * by lia.
    generalize dependent (Z.to_nat (hi - lo)). intros n. induction n as [|n IH].
    + intros. now rewrite for_range_nil by lia.
    + intros Hst _. 
      replace (lo + Z.of_nat (Datatypes.S n)) with (lo + Z.of_nat n + 1) in * by lia.
      rewrite for_range_succ by lia. apply Hst; [lia|].
      destruct n as [|n'].
      * now rewrite for_range_nil by lia.
      * apply IH; [|lia]. intros i s' Hi. apply Hst. lia.
Qed.

Lemma get_set_eq a i v : 0 <= i < Z.of_nat (length a) -> get (set a i v) i = v.
Proof.
  intros H. unfold get, set. rewrite list_lookup_insert_eq by lia. reflexivity.
Qed.

Lemma get_set_ne a i j v : 0 <= i -> 0 <= j -> i <> j -> get (set a i v) j = get a j.
Proof.
  intros Hi Hj H. unfold get, set. rewrite list_lookup_insert_ne by lia. reflexivity.
Qed.

Lemma length_set a i v : length (set a i v) = length a.
Proof. apply length_insert. Qed.


(** Filling the first [n] cells of an array. *)
Lemma fill_length (g : Z -> Z) n a :
  length (for_range 0 n (fun i st => set st i (g i)) a) = length a.
Proof.
  apply (for_range_invariant (fun st => length st = length a)); [reflexivity|].
  intros i st _ E. now rewrite length_set.
Qed.

Lemma fill_get (g : Z -> Z) n a i :
  n <= Z.of_nat (length a) -> 0 <= i ->
  get (for_range 0 n (fun i st => set st i (g i)) a) i
  = if i <? n then g i else get a i.
Proof.
  intros Hn Hi. destruct (Z.le_gt_cases n 0) as [Hle|Hgt].
  { rewrite for_range_nil by lia. destruct (Z.ltb_spec i n); [lia|reflexivity]. }
  replace n with (Z.of_nat (Z.to_nat n)) in * by lia.
  generalize dependent (Z.to_nat n). clear n. intros n. induction n as [|n IH]; intros Hn Hgt.
  - lia.
  - replace (Z.of_nat (Datatypes.S n)) with (Z.of_nat n + 1) in * by lia.
    rewrite for_range_succ by lia.
    destruct (Z.eq_dec i (Z.of_nat n)) as [->|Hne].
    + rewrite get_set_eq by (rewrite fill_length; lia).
      destruct (Z.ltb_spec (Z.of_nat n) (Z.of_nat n + 1)); [reflexivity|lia].
    + rewrite get_set_ne by lia.
      destruct n as [|n'].
      * rewrite for_range_nil by lia.
        destruct (Z.ltb_spec i (Z.of_nat 0 + 1)); [lia|reflexivity].
      * rewrite IH by lia.
        destruct (Z.ltb_spec i (Z.of_nat (Datatypes.S n'))),
                 (Z.ltb_spec i (Z.of_nat (Datatypes.S n') + 1)); try lia; reflexivity.
Qed.

(** ** How far one call of the permutation carries a word *)

Lemma keccak_round_length st : length (keccak_round st) = length st.
Proof.
  unfold keccak_round.
  apply (for_range_invariant (fun s => length s = length st)); [reflexivity|].
  intros i s _ E. now rewrite length_set.
Qed.

Lemma keccak_round_prefix st n :
  length st = 25%nat -> 0 <= n <= 24 ->
  let cur := for_range 0 n
      (fun i st => set st i (Z.lxor (rotl32 (get st i) 1) (get st ((i + 1) mod 25))))
      st in
  length cur = 25%nat
  /\ forall j, 0 <= j ->
       get cur j = if j <? n then Z.lxor (rotl32 (get st j) 1) (get st (j + 1))
                   else get st j.
Proof.
  intros Hlen Hn. replace n with (Z.of_nat (Z.to_nat n)) in * by lia.
  generalize dependent (Z.to_nat n). clear n. intros n. induction n as [|n IH]; intros Hn.
  - rewrite for_range_nil by lia. split; [assumption|].
    intros j Hj. destruct (Z.ltb_spec j (Z.of_nat 0)); [lia|reflexivity].
  - replace (Z.of_nat (S n)) with (Z.of_nat n + 1) in * by lia.
    rewrite for_range_succ by lia. cbv zeta.
    destruct (IH ltac:(lia)) as [Hl Hg]. cbv zeta in Hl, Hg.
    split; [now rewrite length_set|].
    intros j Hj. destruct (Z.eq_dec j (Z.of_nat n)) as [->|Hne].
    + rewrite get_set_eq by lia.
      rewrite (Z.mod_small (Z.of_nat n + 1)) by lia.
      rewrite !Hg by lia.
      destruct (Z.ltb_spec (Z.of_nat n) (Z.of_nat n)),
               (Z.ltb_spec (Z.of_nat n + 1) (Z.of_nat n)),
               (Z.ltb_spec (Z.of_nat n) (Z.of_nat n + 1)); lia || reflexivity.
    + rewrite get_set_ne by lia. rewrite Hg by lia.
      destruct (Z.ltb_spec j (Z.of_nat n)), (Z.ltb_spec j (Z.of_nat n + 1));
        lia || reflexivity.
Qed.

Lemma keccak_round_get st i :
  length st = 25%nat -> 0 <= i < 24 ->
  get (keccak_round st) i = Z.lxor (rotl32 (get st i) 1) (get st (i + 1)).
Proof.
  intros Hlen Hi. unfold keccak_round. change 25 with (24 + 1).
  rewrite for_range_succ by lia.
  destruct (keccak_round_prefix st 24 Hlen ltac:(lia)) as [Hl Hg].
  cbv zeta in Hl, Hg. rewrite get_set_ne by lia. rewrite Hg by lia.
  destruct (Z.ltb_spec i 24); [reflexivity|lia].
Qed.

Lemma keccak_round_agree s t n :
  length s = 25%nat -> length t = 25%nat -> 0 <= n <= 24 ->
  agree (n + 1) s t -> agree n (keccak_round s) (keccak_round t).
Proof.
  intros Hs Ht Hn Hag i Hi.
  rewrite !keccak_round_get by (assumption || lia).
  rewrite (Hag i), (Hag (i + 1)) by lia. reflexivity.
Qed.

Lemma fold_left_const_iter {S : Type} (f : S -> S) a n s :
  fold_left (fun s (_ : nat) => f s) (seq a n) s = Nat.iter n f s.
Proof.
  revert a s. induction n as [|n IH]; intros a s; [reflexivity|].
  cbn [seq fold_left]. rewrite IH. symmetry. apply Nat.iter_succ_r.
Qed.

Lemma keccak_f800_progpow_iter st :
  keccak_f800_progpow st = Nat.iter 22 keccak_round st.
Proof.
  unfold keccak_f800_progpow, for_range.
  change (Z.to_nat (22 - 0)) with 22%nat. apply fold_left_const_iter.
Qed.

Lemma iter_keccak_round_length k st :
  length (Nat.iter k keccak_round st) = length st.
Proof.
  induction k as [|k IH]; [reflexivity|].
  rewrite Nat.iter_succ. now rewrite keccak_round_length.
Qed.

Lemma iter_keccak_round_agree k s t n :
  length s = 25%nat -> length t = 25%nat -> 0 <= n -> n + Z.of_nat k <= 25 ->
  agree (n + Z.of_nat k) s t ->
  agree n (Nat.iter k keccak_round s) (Nat.iter k keccak_round t).
Proof.
  intros Hs Ht. revert n. induction k as [|k IH]; intros n Hn Hk Hag.
  - cbn [Nat.iter nat_rect]. now rewrite Z.add_0_r in Hag.
  - rewrite !Nat.iter_succ. apply keccak_round_agree.
    + now rewrite iter_keccak_round_length.
    + now rewrite iter_keccak_round_length.
    + lia.
    + apply IH; [lia|lia|]. now replace (n + 1 + Z.of_nat k) with (n + Z.of_nat (S k)) by lia.
Qed.


Lemma keccak_word0_prefix s t :
  length s = 25%nat -> length t = 25%nat -> agree 23 s t ->
  get (keccak_f800_progpow s) 0 = get (keccak_f800_progpow t) 0.
Proof.
  intros Hs Ht Hag.
  rewrite (keccak_f800_progpow_iter s), (keccak_f800_progpow_iter t).
  assert (H1 : 0 <= 1) by lia.
  assert (H2 : 1 + Z.of_nat 22 <= 25) by lia.
  pose proof (iter_keccak_round_agree 22 s t 1 Hs Ht H1 H2 Hag) as H.
  apply H. lia.
Qed.

(** ** Words in memory *)

Lemma byte_val_range b : 0 <= byte_val b < 256.
Proof.
  unfold byte_val. pose proof (Byte.to_N_bounded b). lia.
Qed.

Lemma lor_shiftl_add a b k :
  0 <= k -> 0 <= a < 2 ^ k -> Z.lor a (Z.shiftl b k) = a + 2 ^ k * b.
Proof.
  intros Hk Ha. rewrite Z.shiftl_mul_pow2 by lia.
  rewrite (Z.mul_comm (2 ^ k)).
  assert (E : Z.land a (b * 2 ^ k) = 0).
  { apply Z.bits_inj'. intros i Hi. rewrite Z.land_spec, Z.bits_0.
    destruct (Z.lt_ge_cases i k).
    - rewrite Z.mul_pow2_bits_low by lia. apply andb_false_r.
    - destruct (Z.eq_dec a 0) as [->|]; [now rewrite Z.bits_0|].
      rewrite (Z.bits_above_log2 a i); [reflexivity|lia|].
      apply Z.lt_le_trans with k; [|assumption]. apply Z.log2_lt_pow2; lia. }
  rewrite <- (Z.lxor_lor _ _ E). symmetry. now apply Z.add_nocarry_lxor.
Qed.

Lemma load32_sum data i :
  load32 data i
  = byte_val (data (4 * i)) + 2 ^ 8 * byte_val (data (4 * i + 1))
    + 2 ^ 16 * byte_val (data (4 * i + 2)) + 2 ^ 24 * byte_val (data (4 * i + 3)).
Proof.
  unfold load32.
  pose proof (byte_val_range (data (4 * i))) as H0.
  pose proof (byte_val_range (data (4 * i + 1))) as H1.
  pose proof (byte_val_range (data (4 * i + 2))) as H2.
  pose proof (byte_val_range (data (4 * i + 3))) as H3.
  set (b0 := byte_val (data (4 * i))) in *.
  set (b1 := byte_val (data (4 * i + 1))) in *.
  set (b2 := byte_val (data (4 * i + 2))) in *.
  set (b3 := byte_val (data (4 * i + 3))) in *.
  replace (Z.shiftl b2 16) with (Z.shiftl (Z.shiftl b2 8) 8)
    by (rewrite Z.shiftl_shiftl by lia; reflexivity).
  replace (Z.shiftl b3 24) with (Z.shiftl (Z.shiftl (Z.shiftl b3 8) 8) 8)
    by (rewrite !Z.shiftl_shiftl by lia; reflexivity).
  rewrite <- !Z.shiftl_lor.
  rewrite (lor_shiftl_add b2 b3 8) by lia.
  rewrite (lor_shiftl_add b1 _ 8) by lia.
  rewrite (lor_shiftl_add b0 _ 8) by lia.
  lia.
Qed.

Lemma list_ind4 (P : list byte -> Prop) :
  (forall l, (length l < 4)%nat -> P l) ->
  (forall b0 b1 b2 b3 rest, P rest -> P (b0 :: b1 :: b2 :: b3 :: rest)) ->
  forall l, P l.
Proof.
  intros Hshort Hstep l.
  remember (length l) as n eqn:En. revert l En.
  induction n as [n IH] using lt_wf_ind. intros l En.
  destruct l as [|b0 [|b1 [|b2 [|b3 rest]]]];
    try (apply Hshort; cbn [length]; lia).
  apply Hstep. apply (IH (length rest)); [|reflexivity].
  subst n. cbn [length]. lia.
Qed.

Lemma words_le_length bytes :
  Z.of_nat (length (words_le bytes)) = Z.of_nat (length bytes) / 4.
Proof.
  induction bytes as [l Hl | b0 b1 b2 b3 rest IH] using list_ind4.
  - destruct l as [|b0 [|b1 [|b2 [|b3 rest]]]]; cbn [length] in *;
      try lia; cbn [words_le length]; symmetry; apply Z.div_small; lia.
  - cbn [words_le length]. rewrite !Nat2Z.inj_succ, IH.
    replace (Z.succ (Z.succ (Z.succ (Z.succ (Z.of_nat (length rest))))))
      with (Z.of_nat (length rest) + 1 * 4) by lia.
    rewrite Z.div_add by lia. lia.
Qed.

Lemma buffer_of_list_skip4 b0 b1 b2 b3 rest i :
  0 <= i ->
  buffer_of_list (b0 :: b1 :: b2 :: b3 :: rest) (4 + i) = buffer_of_list rest i.
Proof.
  intros Hi. unfold buffer_of_list.
  replace (Z.to_nat (4 + i)) with (S (S (S (S (Z.to_nat i))))) by lia.
  reflexivity.
Qed.

Lemma words_le_lookup bytes i :
  (i < length (words_le bytes))%nat ->
  words_le bytes !! i = Some (load32 (buffer_of_list bytes) (Z.of_nat i)).
Proof.
  revert i. induction bytes as [l Hl | b0 b1 b2 b3 rest IH] using list_ind4;
    intros i Hi.
  - destruct l as [|b0 [|b1 [|b2 [|b3 rest]]]]; cbn [length] in *;
      try lia; cbn [words_le length] in Hi; lia.
  - cbn [words_le] in *. destruct i as [|i].
    + cbn [lookup list_lookup]. f_equal. rewrite load32_sum. reflexivity.
    + cbn [lookup list_lookup length] in *. rewrite IH by lia. f_equal.
      rewrite !load32_sum.
      replace (4 * Z.of_nat (S i)) with (4 + 4 * Z.of_nat i) by lia.
      rewrite <- !Z.add_assoc.
      rewrite !buffer_of_list_skip4 by lia.
      rewrite !Z.add_assoc. reflexivity.
Qed.

(** ** The absorb loop *)

Lemma list_eq_get (a b : list Z) :
  length a = length b -> (forall i, 0 <= i -> get a i = get b i) -> a = b.
Proof.
  intros Hlen Hget. apply list_eq. intros i.
  specialize (Hget (Z.of_nat i) ltac:(lia)). unfold get in Hget.
  rewrite Nat2Z.id in Hget.
  destruct (a !! i) as [x|] eqn:Ea, (b !! i) as [y|] eqn:Eb; cbn in Hget.
  - now subst.
  - apply lookup_lt_Some in Ea. apply lookup_ge_None_1 in Eb. lia.
  - apply lookup_lt_Some in Eb. apply lookup_ge_None_1 in Ea. lia.
  - reflexivity.
Qed.

Lemma to_int_small x : 0 <= x < 2 ^ 31 -> to_int x = x.
Proof.
  intros Hx. unfold to_int. rewrite Z.mod_small by lia.
  destruct (Z.ltb_spec x (2 ^ 31)); [reflexivity | lia].
Qed.

Lemma get_replicate n i : get (replicate n 0) i = 0.
Proof.
  unfold get. destruct (replicate n 0 !! Z.to_nat i) as [x|] eqn:E;
    [|reflexivity].
  apply lookup_replicate_1 in E. cbn. apply E.
Qed.

Lemma absorb_length words data len : length (absorb words data len) = 25%nat.
Proof. unfold absorb. now rewrite fill_length, length_replicate. Qed.

Lemma absorb_get words data len i :
  words <= 25 -> 0 <= i ->
  get (absorb words data len) i
  = if i <? Z.min (to_int (len / 4)) words then load32 data i else 0.
Proof.
  intros Hw Hi. unfold absorb.
  rewrite fill_get, get_replicate; [reflexivity| |assumption].
  rewrite length_replicate. lia.
Qed.

Lemma absorb_spec_length bytes : length (absorb_spec bytes) = 25%nat.
Proof.
  unfold absorb_spec.
  rewrite length_app, length_take, length_app, !length_replicate. lia.
Qed.

Lemma absorb_spec_get bytes i :
  0 <= i ->
  get (absorb_spec bytes) i
  = if i <? Z.min (Z.of_nat (length bytes) / 4) 18
    then load32 (buffer_of_list bytes) i else 0.
Proof.
  intros Hi. unfold absorb_spec, get.
  pose proof (words_le_length bytes) as Hwl.
  assert (Ht : length (take 18 (words_le bytes ++ replicate 18 0)) = 18%nat).
  { rewrite length_take, length_app, length_replicate. lia. }
  destruct (Z.lt_ge_cases i 18) as [H18|H18].
  - rewrite lookup_app_l, lookup_take_lt by lia.
    destruct (Z.lt_ge_cases i (Z.of_nat (length bytes) / 4)) as [Hw|Hw].
    + rewrite lookup_app_l, words_le_lookup by lia.
      rewrite Z2Nat.id by lia.
      destruct (Z.ltb_spec i (Z.min (Z.of_nat (length bytes) / 4) 18));
        [reflexivity | lia].
    + rewrite lookup_app_r by lia. rewrite lookup_replicate_2 by lia.
      destruct (Z.ltb_spec i (Z.min (Z.of_nat (length bytes) / 4) 18));
        [lia | reflexivity].
  - destruct (Z.ltb_spec i (Z.min (Z.of_nat (length bytes) / 4) 18)); [lia|].
    rewrite lookup_app_r by lia.
    match goal with
    | |- default 0 (replicate 7 0 !! ?k) = 0 =>
        destruct (replicate 7 0 !! k) as [x|] eqn:E; [|reflexivity]
    end.
    apply lookup_replicate_1 in E. cbn. apply E.
Qed.

Lemma absorb_absorb_spec bytes :
  Z.of_nat (length bytes) / 4 < 2 ^ 31 ->
  absorb 18 (buffer_of_list bytes) (Z.of_nat (length bytes)) = absorb_spec bytes.
Proof.
  intros Hlen. apply list_eq_get.
  - now rewrite absorb_length, absorb_spec_length.
  - intros i Hi. rewrite absorb_get, absorb_spec_get by lia.
    rewrite to_int_small; [reflexivity|].
    split; [apply Z.div_pos; lia | assumption].
Qed.


(** ** The digest *)



(** ** Seed heights *)

Lemma kawpow_seedheight_eq h :
  is_u64 h -> kawpow_seedheight h = h / KAWPOW_EPOCH_LENGTH * KAWPOW_EPOCH_LENGTH.
Proof.
  unfold is_u64, kawpow_seedheight, u64, KAWPOW_EPOCH_LENGTH. intros Hh.
  assert (0 <= h / 7500 <= h).
  { split; [apply Z.div_pos; lia|]. apply Z.div_le_upper_bound; lia. }
  assert (h / 7500 * 7500 <= h).
  { rewrite Z.mul_comm. apply Z.mul_div_le. lia. }
  rewrite (Z.mod_small (h / 7500)) by lia.
  apply Z.mod_small. lia.
Qed.

Lemma kawpow_seedheight_is_u64 h : is_u64 (kawpow_seedheight h).
Proof.
  unfold is_u64, kawpow_seedheight, u64. apply Z.mod_pos_bound. lia.
Qed.

(** ** The seed manager *)

Lemma take_all {A : Type} (l : list A) n : length l = n -> take n l = l.
Proof. intros <-. apply firstn_all. Qed.

(** * Properties of the specification, checked on the code *)

(** ** C1: determinism of the hash *)


(** ** C2: the seed hash argument *)

(** C2. The digest of [kawpow_slow_hash] does not depend on its [seedhash]
    argument: for any two seed hashes, the same buffer and length give the
    same digest, under any file-level variables.  The output therefore
    separates no pair of distinct seed hashes. *)
Theorem kawpow_slow_hash_ignores_seedhash
    (A B : list byte) (data : buffer) (len : Z) (g : globals) :
  kawpow_slow_hash A data len = kawpow_slow_hash B data len
  /\ fst (exec (SlowHash A data len) g) = fst (exec (SlowHash B data len) g).
Proof.
  assert (E : kawpow_slow_hash A data len = kawpow_slow_hash B data len).
  { unfold kawpow_slow_hash. reflexivity. }
  split; [exact E|]. cbn [exec fst]. now rewrite E.
Qed.

(** ** C3: the seed of the program generator *)

(** C3. The generator that draws the sources, destinations and selectors of
    the mixing program is seeded from the constant [prog_seed = 1], not from
    the period index of a height.  At height 0 the period index is 0, and
    the generator seeded from it differs from the one the engine uses,
    already in the five draws of the first instruction; the engine's
    generator is the one of the period index only for the heights 3, 4, 5,
    while the heights 2 and 3 lie in different periods. *)
Theorem program_seed_is_constant :
  prog_seed = 1
  /\ period_index 0 = 0
  /\ prog_rnd_init prog_seed <> prog_rnd_init (period_index 0)
  /\ first_instruction (prog_rnd_init prog_seed)
     <> first_instruction (prog_rnd_init (period_index 0))
  /\ prog_rnd_init prog_seed = prog_rnd_init (period_index 3)
  /\ period_index 2 <> period_index 3.
Proof.
  split; [reflexivity|]. split; [reflexivity|]. split; [|split; [|split]].
  - intros H. apply (f_equal z) in H. vm_compute in H. discriminate.
  - intros H. vm_compute in H. discriminate.
  - reflexivity.
  - intros H. vm_compute in H. discriminate.
Qed.

(** ** C4: diffusion of the permutation *)

(** C4. Word 0 of the output of [keccak_f800_progpow] does not depend on
    word 24 of its input: overwriting word 24 of a 25-word state with any
    value leaves word 0 of the image as it was. *)
Theorem keccak_word0_ignores_word24
    (st : list Z) (v : Z) (Hlen : length st = 25%nat) :
  get (keccak_f800_progpow (set st 24 v)) 0 = get (keccak_f800_progpow st) 0.
Proof.
  apply keccak_word0_prefix.
  - now rewrite length_set.
  - assumption.
  - intros i Hi. apply get_set_ne; lia.
Qed.

Lemma keccak_word0_ignores_word24_witness :
  length (replicate 25 0) = 25%nat
  /\ get (keccak_f800_progpow (set (replicate 25 0) 24 1)) 0
     = get (keccak_f800_progpow (replicate 25 0)) 0.
Proof.
  split; [reflexivity|].
  apply (keccak_word0_ignores_word24 (replicate 25 0) 1). reflexivity.
Defined.

(** The permutation does not diffuse fully: no pair of states that differ
    only in word 24 is told apart by bit 0 of the output. *)
Lemma keccak_f800_progpow_not_full_diffusion : ~ full_diffusion.
Proof.
  intros Hfd.
  destruct (Hfd 24 0 ltac:(lia) ltac:(lia)) as (s & t & Hd & Hne).
  destruct Hd as (Hs & Ht & _ & _ & Hsame).
  apply Hne. unfold output_bit. change (0 / 32) with 0.
  f_equal. apply keccak_word0_prefix; try assumption.
  intros i Hi. apply Hsame; lia.
Qed.

(** Dependence as [full_diffusion] asks for it does occur: bit 22 of
    output word 0 tells the zero state from the state whose word 0 is 1. *)
Lemma keccak_word0_depends_on_word0 :
  differ_only_at 0 (replicate 25 0) (set (replicate 25 0) 0 1)
  /\ output_bit (keccak_f800_progpow (replicate 25 0)) 22
     <> output_bit (keccak_f800_progpow (set (replicate 25 0) 0 1)) 22.
Proof.
  split.
  - split; [reflexivity|]. split; [reflexivity|].
    split; [apply Forall_replicate; unfold is_u32; lia|].
    split.
    + unfold set. apply Forall_insert;
        [apply Forall_replicate|]; unfold is_u32; lia.
    + intros i Hi Hne. symmetry. apply get_set_ne; lia.
  - vm_compute. discriminate.
Qed.

(** ** C5: publishing a seed hash *)

(** Whatever "built from the seed hash" means, the call does not establish
    it: after [kawpow_set_main_seedhash] on the initial variables there is
    no published Cache at all. *)
Lemma kawpow_set_main_seedhash_builds_nothing :
  ~ exists build_cache build_dataset,
      forall seedhash threads g,
        length seedhash = 32%nat ->
        published_consistent build_cache build_dataset
          (kawpow_set_main_seedhash seedhash threads g).
Proof.
  intros (bc & bd & H).
  destruct (H (replicate 32 x01) 1 initial_globals eq_refl) as [Hc _].
  cbn in Hc. discriminate.
Qed.

(** C5. [kawpow_set_main_seedhash(new)] only stores the seed hash.  On
    every call, also when [new] already is the published seed hash, it
    takes the write lock of the cache, logs the new seed hash and releases
    the lock (the three events, in this order, are all it adds to the
    trace); afterwards [new] is the main seed hash and the flag is set.
    It builds and publishes nothing: [main_cache] and [main_dataset] are
    the pointers from before the call, so that from the initial variables
    both are still null.  When [new] already was the published seed hash,
    the published state (flag, seed hash, cache and dataset pointers) is
    the one from before the call. *)
Theorem kawpow_set_main_seedhash_stores_only
    (seedhash : list byte) (threads : Z) (g : globals)
    (Hlen : length seedhash = 32%nat) :
  let g' := kawpow_set_main_seedhash seedhash threads g in
  main_cache g' = main_cache g
  /\ main_dataset g' = main_dataset g
  /\ main_seedhash g' = seedhash
  /\ main_seedhash_set g' = 1
  /\ is_main seedhash g' = true
  /\ main_cache_locked g' = false
  /\ trace g'
     = trace g ++ [LockWrite;
                   Info ("KawPow new main seed hash is " ++ hash2hex seedhash);
                   UnlockWrite]
  /\ (main_seedhash_set g = 1 -> main_seedhash g = seedhash ->
      epoch_state g' = epoch_state g).
Proof.
  cbv zeta. unfold kawpow_set_main_seedhash, unlock_write, lock_write,
    store_seedhash, is_main, epoch_state. unfold emit.
  cbn [main_seedhash main_seedhash_set main_cache_locked trace main_cache
       main_dataset miner_thread].
  change (Z.to_nat HASH_SIZE) with 32%nat.
  rewrite (take_all seedhash 32 Hlen).
  repeat split.
  - rewrite bool_decide_eq_true_2 by reflexivity. reflexivity.
  - rewrite <- !app_assoc. reflexivity.
  - intros Hset Hseed. now rewrite Hset, Hseed.
Qed.

Lemma kawpow_set_main_seedhash_stores_only_witness :
  length (replicate 32 x01) = 32%nat
  /\ main_cache
       (kawpow_set_main_seedhash (replicate 32 x01) 1 initial_globals)
     = None
  /\ main_dataset
       (kawpow_set_main_seedhash (replicate 32 x01) 1 initial_globals)
     = None.
Proof.
  split; [reflexivity|].
  split.
  - exact (proj1 (kawpow_set_main_seedhash_stores_only (replicate 32 x01) 1
                    initial_globals eq_refl)).
  - exact (proj1 (proj2 (kawpow_set_main_seedhash_stores_only
                           (replicate 32 x01) 1 initial_globals eq_refl))).
Defined.

(** ** C6: the absorb step *)

(** C6. At a length of [2^33] bytes the word count [length / 4 = 2^31] does
    not fit the [int] it is stored in; the loop bound becomes negative and
    no word is absorbed: the state stays zero, although the first word of
    the buffer is [0x01010101].  (Below [2^33] bytes the absorbed state is
    [absorb_spec], see [absorb_absorb_spec].) *)
Theorem absorb_word_count_narrowed :
  to_int (2 ^ 33 / 4) = - 2 ^ 31
  /\ absorb 18 (fun _ => x01) (2 ^ 33) = replicate 25 0
  /\ load32 (fun _ => x01) 0 = 0x01010101.
Proof. repeat split. Qed.

(** ** C7: the math operators *)

(** With both operands zero and selector 9 the code returns 62, while two
    32-bit zeros have 64 leading zero bits. *)
Lemma kawpow_math_clz_of_zero :
  ~ forall a b r, is_u32 a -> is_u32 b -> is_u32 r ->
      kawpow_math a b r = mathOp a b r.
Proof.
  intros H. specialize (H 0 0 9). vm_compute in H.
  assert (E : 62 = 64) by (apply H; split; (discriminate || reflexivity)).
  discriminate.
Qed.

(** C7, amended. For 32-bit [a], [b] and selector [r], [kawpow_math a b r]
    is the operation selected by [r mod 11]: 0 add, 1 multiply (both modulo
    [2^32]), 2 high 32 bits of the 64-bit product, 3 minimum, 4 rotate-left
    and 5 rotate-right by [b mod 32], 6 and, 7 or, 8 xor, 9 the sum of the
    leading-zero counts of [a | 1] and [b | 1] (a zero operand counts 31,
    not 32), 10 the sum of the population counts. *)
Theorem kawpow_math_selects_operation
    (a b r : Z) (Ha : is_u32 a) (Hb : is_u32 b) (Hr : is_u32 r) :
  kawpow_math a b r = mathOp_clz_or1 a b r.
Proof. apply kawpow_math_mathOp; assumption. Qed.

Lemma kawpow_math_selects_operation_witness :
  is_u32 0x80000001 /\ is_u32 36 /\ is_u32 15
  /\ kawpow_math 0x80000001 36 15 = mathOp_clz_or1 0x80000001 36 15.
Proof.
  assert (H1 : is_u32 0x80000001) by (unfold is_u32; lia).
  assert (H2 : is_u32 36) by (unfold is_u32; lia).
  assert (H3 : is_u32 15) by (unfold is_u32; lia).
  split; [exact H1|]. split; [exact H2|]. split; [exact H3|].
  apply (kawpow_math_selects_operation _ _ _ H1 H2 H3).
Defined.

(** ** C8: the merge operators *)

(** C8. For 32-bit [a], [b] and selector [r], [kawpow_merge a b r] is the
    operation selected by [r mod 4]: 0 gives [a * 33 + b], 1 gives
    [(a xor b) * 33], both modulo [2^32]; 2 gives [a] rotated left, 3 gives
    [a] rotated right, by [((r >> 16) mod 31) + 1], xor [b].  The result is
    a 32-bit value, and no shift in the computation is out of range. *)
Theorem kawpow_merge_selects_operation
    (a b r : Z) (Ha : is_u32 a) (Hb : is_u32 b) (Hr : is_u32 r) :
  kawpow_merge a b r = mergeOp a b r
  /\ is_u32 (kawpow_merge a b r)
  /\ Strict.kawpow_merge a b r = Some (kawpow_merge a b r).
Proof.
  split; [|split].
  - apply kawpow_merge_mergeOp; assumption.
  - apply kawpow_merge_is_u32; assumption.
  - apply strict_kawpow_merge_defined; assumption.
Qed.

Lemma kawpow_merge_selects_operation_witness :
  is_u32 0xffffffff /\ is_u32 0xfffffffe /\ is_u32 0x001e0002
  /\ kawpow_merge 0xffffffff 0xfffffffe 0x001e0002
     = mergeOp 0xffffffff 0xfffffffe 0x001e0002.
Proof.
  assert (H1 : is_u32 0xffffffff) by (unfold is_u32; lia).
  assert (H2 : is_u32 0xfffffffe) by (unfold is_u32; lia).
  assert (H3 : is_u32 0x001e0002) by (unfold is_u32; lia).
  split; [exact H1|]. split; [exact H2|]. split; [exact H3|].
  apply (kawpow_merge_selects_operation _ _ _ H1 H2 H3).
Defined.

(** ** C9: seed heights *)

(** C9. On 64-bit heights [kawpow_seedheight] is idempotent and monotonic,
    [kawpow_seedheight 7499 = 0], [kawpow_seedheight 7500 = 7500], and
    [kawpow_seedheights 10000] yields [(7500, 15000)]. *)
Theorem kawpow_seedheight_idempotent_monotonic
    (h h1 h2 : Z) (Hh : is_u64 h) (H1 : is_u64 h1) (H2 : is_u64 h2)
    (Hlt : h1 < h2) :
  kawpow_seedheight (kawpow_seedheight h) = kawpow_seedheight h
  /\ kawpow_seedheight h1 <= kawpow_seedheight h2
  /\ kawpow_seedheight 7499 = 0
  /\ kawpow_seedheight 7500 = 7500
  /\ kawpow_seedheights 10000 = (7500, 15000).
Proof.
  split; [|split; [|repeat split]].
  - rewrite (kawpow_seedheight_eq (kawpow_seedheight h))
      by apply kawpow_seedheight_is_u64.
    rewrite (kawpow_seedheight_eq h Hh). unfold KAWPOW_EPOCH_LENGTH.
    now rewrite Z.div_mul by lia.
  - rewrite !kawpow_seedheight_eq by assumption. unfold KAWPOW_EPOCH_LENGTH.
    apply Z.mul_le_mono_nonneg_r; [lia|]. apply Z.div_le_mono; lia.
Qed.

Lemma kawpow_seedheight_idempotent_monotonic_witness :
  is_u64 20000 /\ is_u64 7499 /\ is_u64 7500 /\ 7499 < 7500
  /\ kawpow_seedheight (kawpow_seedheight 20000) = kawpow_seedheight 20000
  /\ kawpow_seedheight 7499 <= kawpow_seedheight 7500.
Proof.
  assert (H0 : is_u64 20000) by (unfold is_u64; lia).
  assert (H1 : is_u64 7499) by (unfold is_u64; lia).
  assert (H2 : is_u64 7500) by (unfold is_u64; lia).
  assert (H3 : 7499 < 7500) by lia.
  destruct (kawpow_seedheight_idempotent_monotonic 20000 7499 7500
              H0 H1 H2 H3) as (Hi & Hm & _).
  split; [exact H0|]. split; [exact H1|]. split; [exact H2|].
  split; [exact H3|]. split; assumption.
Defined.

(** ** C10: shift amounts of the rotate helpers *)

(** C10. Among the invocations of [rotl32] and [rotr32] reachable from
    [kawpow_math] and [kawpow_merge], the ones that shift by 32 bits are
    exactly the rotate cases of [kawpow_math] (selector [mod 11] in 4, 5)
    with [b mod 32 = 0], where the complementary shift is by
    [32 - 0 = 32]; every shift reachable from [kawpow_merge] is by 1 to 31
    bits. *)
Theorem rotate_shift_amounts
    (a b r : Z) (Hb : is_u32 b) (Hr : is_u32 r) :
  (Strict.kawpow_math a b r = None
   <-> (r mod 11 = 4 \/ r mod 11 = 5) /\ b mod 32 = 0)
  /\ Strict.kawpow_merge a b r = Some (kawpow_merge a b r).
Proof.
  split; [|apply strict_kawpow_merge_defined; assumption].
  unfold Strict.kawpow_math. rewrite land_31 by apply Hb.
  pose proof (Z.mod_pos_bound b 32 ltac:(lia)) as Hn.
  pose proof (Z.mod_pos_bound r 11 ltac:(lia)) as Hm.
  remember (r mod 11) as k eqn:Ek. clear Ek.
  remember (b mod 32) as n eqn:En. clear En.
  destruct (Z.eq_dec n 0) as [-> | Hne].
  - split_selector k; split; try discriminate; try reflexivity;
      try (intros _; split; [lia | reflexivity]);
      intros [[H | H] _]; discriminate.
  - split_selector k; split; try discriminate;
      try (intros [_ H]; contradiction);
      try (rewrite strict_rotl32_defined by lia; discriminate);
      try (rewrite strict_rotr32_defined by lia; discriminate).
Qed.

Lemma rotate_shift_amounts_witness :
  is_u32 64 /\ is_u32 4
  /\ (Strict.kawpow_math 5 64 4 = None
      <-> (4 mod 11 = 4 \/ 4 mod 11 = 5) /\ 64 mod 32 = 0).
Proof.
  assert (H1 : is_u32 64) by (unfold is_u32; lia).
  assert (H2 : is_u32 4) by (unfold is_u32; lia).
  split; [exact H1|]. split; [exact H2|].
  apply (rotate_shift_amounts 5 64 4 H1 H2).
Defined.

(** * Lemmas for the further properties *)

(** ** Mixing steps lose nothing *)

Lemma lxor_cancel_l a b c : Z.lxor a b = Z.lxor a c -> b = c.
Proof.
  intros E. apply (f_equal (Z.lxor a)) in E.
  now rewrite <- !Z.lxor_assoc, Z.lxor_nilpotent, !Z.lxor_0_l in E.
Qed.

Lemma lxor_cancel_r a b c : Z.lxor b a = Z.lxor c a -> b = c.
Proof. rewrite !(Z.lxor_comm _ a). apply lxor_cancel_l. Qed.

(** Multiplication by a unit modulo [2^32] is injective on 32-bit words. *)
Lemma u32_mul_cancel c cinv x y :
  u32 (c * cinv) = 1 -> is_u32 x -> is_u32 y ->
  u32 (x * c) = u32 (y * c) -> x = y.
Proof.
  unfold u32, is_u32. intros Hc Hx Hy E.
  assert (F : forall v, 0 <= v < 2 ^ 32 ->
            ((v * c) mod 2 ^ 32 * cinv) mod 2 ^ 32 = v).
  { intros v Hv. rewrite Z.mul_mod_idemp_l by lia.
    rewrite <- Z.mul_assoc, <- Z.mul_mod_idemp_r, Hc by lia.
    rewrite Z.mul_1_r. apply Z.mod_small. lia. }
  rewrite <- (F x Hx), <- (F y Hy), E. reflexivity.
Qed.

Lemma u32_add_cancel_r x y b : u32 (x + b) = u32 (y + b) -> u32 x = u32 y.
Proof.
  unfold u32. intros E.
  replace x with (x + b + - b) by lia. replace y with (y + b + - b) by lia.
  rewrite <- (Z.add_mod_idemp_l (x + b)), <- (Z.add_mod_idemp_l (y + b)) by lia.
  now rewrite E.
Qed.

Lemma u32_add_cancel_l x b c :
  is_u32 b -> is_u32 c -> u32 (x + b) = u32 (x + c) -> b = c.
Proof.
  intros Hb Hc E. rewrite !(Z.add_comm x) in E.
  apply u32_add_cancel_r in E. now rewrite !u32_small in E.
Qed.

Lemma fnv1a_is_u32 h d : is_u32 (fnv1a h d).
Proof. apply u32_range. Qed.

Lemma fnv1a_injective h d1 d2 :
  is_u32 h -> is_u32 d1 -> is_u32 d2 -> fnv1a h d1 = fnv1a h d2 -> d1 = d2.
Proof.
  intros Hh H1 H2 E. unfold fnv1a in E.
  apply (u32_mul_cancel FNV_PRIME 899433627) in E;
    auto using lxor_is_u32.
  now apply lxor_cancel_l in E.
Qed.

(** ** Rotations undo each other *)

Lemma rotr32_rotl32 a n : is_u32 a -> 0 <= n < 32 -> rotr32 (rotl32 a n) n = a.
Proof.
  intros Ha Hn. apply Z.bits_inj'. intros i Hi.
  rewrite rotr32_testbit by auto using rotl32_is_u32.
  destruct (Z.ltb_spec i 32) as [Hlt|Hge]; cbn [andb].
  - assert (Hj : 0 <= (i + n) mod 32 < 32) by (apply Z.mod_pos_bound; lia).
    rewrite rotl32_testbit by (assumption || lia).
    destruct (Z.ltb_spec ((i + n) mod 32) 32); [|lia]. cbn [andb].
    rewrite Zminus_mod_idemp_l. f_equal.
    replace (i + n - n) with i by lia. apply Z.mod_small. lia.
  - symmetry. now apply is_u32_testbit_high.
Qed.

Lemma rotl32_rotr32 a n : is_u32 a -> 0 <= n < 32 -> rotl32 (rotr32 a n) n = a.
Proof.
  intros Ha Hn. apply Z.bits_inj'. intros i Hi.
  rewrite rotl32_testbit by auto using rotr32_is_u32.
  destruct (Z.ltb_spec i 32) as [Hlt|Hge]; cbn [andb].
  - assert (Hj : 0 <= (i - n) mod 32 < 32) by (apply Z.mod_pos_bound; lia).
    rewrite rotr32_testbit by (assumption || lia).
    destruct (Z.ltb_spec ((i - n) mod 32) 32); [|lia]. cbn [andb].
    rewrite Zplus_mod_idemp_l. f_equal.
    replace (i - n + n) with i by lia. apply Z.mod_small. lia.
  - symmetry. now apply is_u32_testbit_high.
Qed.

Lemma rotl32_injective a b n :
  is_u32 a -> is_u32 b -> 0 <= n < 32 -> rotl32 a n = rotl32 b n -> a = b.
Proof.
  intros Ha Hb Hn E. rewrite <- (rotr32_rotl32 a n), <- (rotr32_rotl32 b n), E
    by assumption. reflexivity.
Qed.

Lemma rotr32_injective a b n :
  is_u32 a -> is_u32 b -> 0 <= n < 32 -> rotr32 a n = rotr32 b n -> a = b.
Proof.
  intros Ha Hb Hn E. rewrite <- (rotl32_rotr32 a n), <- (rotl32_rotr32 b n), E
    by assumption. reflexivity.
Qed.

Lemma land_is_u32 a b : is_u32 a -> is_u32 b -> is_u32 (Z.land a b).
Proof.
  intros Ha Hb. apply is_u32_of_bits.
  - apply Z.land_nonneg. left. apply Ha.
  - intros i Hi. rewrite Z.land_spec, !is_u32_testbit_high by assumption.
    reflexivity.
Qed.

Lemma kawpow_math_is_u32 a b r :
  is_u32 a -> is_u32 b -> is_u32 (kawpow_math a b r).
Proof.
  intros Ha Hb. unfold kawpow_math.
  pose proof (Z.mod_pos_bound r 11 ltac:(lia)) as Hm.
  assert (Hn : 0 <= Z.land b 31 < 32).
  { rewrite land_31 by apply Hb. apply Z.mod_pos_bound. lia. }
  remember (r mod 11) as k eqn:Ek. clear Ek. split_selector k;
    auto using u32_range, lxor_is_u32, lor_is_u32, land_is_u32,
      rotl32_is_u32, rotr32_is_u32.
  destruct (a <? b); assumption.
Qed.

Lemma kawpow_merge_injective_dst a a' b r :
  is_u32 a -> is_u32 a' -> is_u32 b -> is_u32 r ->
  kawpow_merge a b r = kawpow_merge a' b r -> a = a'.
Proof.
  intros Ha Ha' Hb Hr. unfold kawpow_merge.
  pose proof (merge_amount r ltac:(apply Hr)) as Hn.
  pose proof (Z.mod_pos_bound r 4 ltac:(lia)) as Hm.
  remember (r mod 4) as k eqn:Ek. clear Ek. split_selector k; intros E.
  - apply u32_add_cancel_r in E. unfold u32 in E. rewrite !Z.mod_mod in E by lia.
    apply (u32_mul_cancel 33 1041204193 a a'); auto.
  - apply (u32_mul_cancel 33 1041204193) in E; auto using lxor_is_u32.
    now apply lxor_cancel_r in E.
  - apply lxor_cancel_r in E. apply rotl32_injective in E; auto with lia.
  - apply lxor_cancel_r in E. apply rotr32_injective in E; auto with lia.
Qed.

Lemma kawpow_merge_injective_src a b b' r :
  is_u32 a -> is_u32 b -> is_u32 b' -> is_u32 r ->
  kawpow_merge a b r = kawpow_merge a b' r -> b = b'.
Proof.
  intros Ha Hb Hb' Hr. unfold kawpow_merge.
  pose proof (Z.mod_pos_bound r 4 ltac:(lia)) as Hm.
  remember (r mod 4) as k eqn:Ek. clear Ek. split_selector k; intros E.
  - now apply u32_add_cancel_l in E.
  - apply (u32_mul_cancel 33 1041204193) in E; auto using lxor_is_u32.
    now apply lxor_cancel_l in E.
  - now apply lxor_cancel_l in E.
  - now apply lxor_cancel_l in E.
Qed.

(** ** The generator *)

Lemma shr32_is_u32 x n : is_u32 x -> 0 <= n -> is_u32 (shr32 x n).
Proof.
  unfold is_u32, shr32. intros Hx Hn. rewrite Z.shiftr_div_pow2 by lia.
  assert (0 < 2 ^ n) by (apply Z.pow_pos_nonneg; lia).
  split; [apply Z.div_pos; lia|].
  apply Z.le_lt_trans with x; [|lia]. apply Z.div_le_upper_bound; nia.
Qed.

Lemma shl32_is_u32 x n : is_u32 (shl32 x n).
Proof. apply u32_range. Qed.

Lemma kiss99_is_u32 st :
  is_u32 (jsr st) ->
  is_u32 (fst (kiss99 st))
  /\ is_u32 (z (snd (kiss99 st))) /\ is_u32 (w (snd (kiss99 st)))
  /\ is_u32 (jsr (snd (kiss99 st))) /\ is_u32 (jcong (snd (kiss99 st))).
Proof.
  intros Hj. unfold kiss99. cbn [fst snd z w jsr jcong].
  repeat split; try apply u32_range.
  all: repeat (apply lxor_is_u32 || apply shl32_is_u32
               || (apply shr32_is_u32; [|lia]) || assumption).
Qed.

(** The two multiply-with-carry lanes never wrap. *)
Lemma mwc_exact c x :
  0 <= c <= 65535 -> is_u32 x ->
  u32 (c * Z.land x 65535 + shr32 x 16) = c * (x mod 2 ^ 16) + x / 2 ^ 16.
Proof.
  unfold is_u32, shr32. intros Hc Hx.
  change 65535 with (Z.ones 16) at 1. rewrite Z.land_ones by lia.
  rewrite Z.shiftr_div_pow2 by lia.
  pose proof (Z.mod_pos_bound x (2 ^ 16) ltac:(lia)).
  assert (0 <= x / 2 ^ 16 < 2 ^ 16).
  { split; [apply Z.div_pos; lia|]. apply Z.div_lt_upper_bound; lia. }
  apply u32_small. unfold is_u32. nia.
Qed.

Lemma kiss99_mwc st :
  is_u32 (z st) -> is_u32 (w st) ->
  z (snd (kiss99 st)) = 36969 * (z st mod 2 ^ 16) + z st / 2 ^ 16
  /\ w (snd (kiss99 st)) = 18000 * (w st mod 2 ^ 16) + w st / 2 ^ 16.
Proof.
  intros Hz Hw. unfold kiss99. cbn [snd z w].
  split; apply mwc_exact; (lia || assumption).
Qed.

(** A word that a xor-shift step sends to zero is zero. *)
Lemma xorshift_left_zero x k :
  is_u32 x -> 0 < k -> Z.lxor x (shl32 x k) = 0 -> x = 0.
Proof.
  intros Hx Hk E. apply Z.bits_inj'. intros i Hi. rewrite Z.bits_0.
  assert (Hall : forall n : nat, forall j, 0 <= j < Z.of_nat n ->
                   Z.testbit x j = false).
  { induction n as [|n IH]; intros j Hj; [lia|].
    destruct (Z.lt_ge_cases j (Z.of_nat n)) as [|Hge]; [apply IH; lia|].
    assert (j = Z.of_nat n) as -> by lia.
    destruct (Z.lt_ge_cases (Z.of_nat n) 32) as [Hlt|Hhigh];
      [|now apply is_u32_testbit_high].
    pose proof (f_equal (fun v => Z.testbit v (Z.of_nat n)) E) as Eb.
    cbv beta in Eb. unfold shl32 in Eb.
    rewrite Z.lxor_spec, u32_testbit, Z.shiftl_spec, Z.bits_0 in Eb by lia.
    destruct (Z.ltb_spec (Z.of_nat n) 32); [|lia]. cbn [andb] in Eb.
    destruct (Z.lt_ge_cases (Z.of_nat n - k) 0).
    - rewrite (Z.testbit_neg_r x (Z.of_nat n - k)) in Eb by lia.
      now rewrite xorb_false_r in Eb.
    - rewrite (IH (Z.of_nat n - k)) in Eb by lia.
      now rewrite xorb_false_r in Eb. }
  apply (Hall (Z.to_nat i + 1)%nat). lia.
Qed.

Lemma xorshift_right_zero x k :
  is_u32 x -> 0 < k -> Z.lxor x (shr32 x k) = 0 -> x = 0.
Proof.
  intros Hx Hk E. apply Z.bits_inj'. intros i Hi. rewrite Z.bits_0.
  assert (Hall : forall n : nat, forall j, 32 - Z.of_nat n <= j ->
                   0 <= j -> Z.testbit x j = false).
  { induction n as [|n IH]; intros j Hj Hj0;
      [apply is_u32_testbit_high; (assumption || lia)|].
    destruct (Z.lt_ge_cases (32 - Z.of_nat n - 1) j) as [|Hle];
      [apply IH; lia|].
    pose proof (f_equal (fun v => Z.testbit v j) E) as Eb.
    cbv beta in Eb. unfold shr32 in Eb.
    rewrite Z.lxor_spec, Z.shiftr_spec, Z.bits_0 in Eb by lia.
    rewrite (IH (j + k)) in Eb by lia.
    now rewrite xorb_false_r in Eb. }
  apply (Hall 32%nat); lia.
Qed.

(** The shift-register lane is stuck at zero exactly when it starts there. *)
Lemma kiss99_jsr_zero st :
  is_u32 (jsr st) -> (jsr (snd (kiss99 st)) = 0 <-> jsr st = 0).
Proof.
  intros Hj. unfold kiss99. cbn [snd jsr]. split.
  - intros E.
    apply xorshift_left_zero in E;
      [|repeat (apply lxor_is_u32 || apply shl32_is_u32
                || (apply shr32_is_u32; [|lia]) || assumption)|lia].
    apply xorshift_right_zero in E;
      [|repeat (apply lxor_is_u32 || apply shl32_is_u32 || assumption)|lia].
    now apply xorshift_left_zero in E.
  - intros ->. reflexivity.
Qed.

Lemma kiss99_draw_spec n st :
  is_u32 (jsr st) ->
  length (fst (kiss99_draw n st)) = n
  /\ Forall is_u32 (fst (kiss99_draw n st))
  /\ is_u32 (jsr (snd (kiss99_draw n st))).
Proof.
  revert st. induction n as [|n IH]; intros st Hj.
  - cbn [kiss99_draw fst snd length]. split; [reflexivity|].
    split; [apply Forall_nil_2 | assumption].
  - cbn [kiss99_draw].
    destruct (kiss99_is_u32 st Hj) as (Ho & _ & _ & Hj1 & _).
    destruct (kiss99 st) as [x st1]. cbn [fst snd] in *.
    specialize (IH st1 Hj1).
    destruct (kiss99_draw n st1) as [xs st2]. cbn [fst snd] in *.
    destruct IH as (Hl & Hf & Hj2).
    split; [cbn [length]; lia|].
    split; [apply Forall_cons_2; assumption | assumption].
Qed.

Lemma kawpow_fill_mix_shape seed lane_id :
  length (kawpow_fill_mix seed lane_id) = 32%nat
  /\ Forall is_u32 (kawpow_fill_mix seed lane_id).
Proof.
  unfold kawpow_fill_mix.
  destruct (kiss99_draw_spec (Z.to_nat KAWPOW_REGS) (kiss99_seed seed lane_id))
    as (Hl & Hf & _).
  - unfold kiss99_seed. cbn [jsr]. apply fnv1a_is_u32.
  - split; [exact Hl | exact Hf].
Qed.

(** Lanes start from different generators. *)
Lemma kiss99_seed_injective seed l1 l2 :
  is_u32 l1 -> is_u32 l2 ->
  kiss99_seed seed l1 = kiss99_seed seed l2 -> l1 = l2.
Proof.
  intros H1 H2 E. apply (f_equal jsr) in E. unfold kiss99_seed in E.
  cbn [jsr] in E. apply fnv1a_injective in E; auto using fnv1a_is_u32.
Qed.

(** ** The permutation is linear and one-to-one *)

Lemma get_is_u32 st i : Forall is_u32 st -> is_u32 (get st i).
Proof.
  intros Hf. unfold get. destruct (st !! Z.to_nat i) as [x|] eqn:E; cbn.
  - rewrite Forall_lookup in Hf. eapply Hf, E.
  - unfold is_u32. lia.
Qed.

Lemma set_sponge_state st i v :
  sponge_state st -> is_u32 v -> sponge_state (set st i v).
Proof.
  intros [Hl Hf] Hv. split; [now rewrite length_set|].
  unfold set. now apply Forall_insert.
Qed.

Lemma keccak_round_sponge_state st :
  sponge_state st -> sponge_state (keccak_round st).
Proof.
  intros Hst. unfold keccak_round.
  apply (for_range_invariant sponge_state); [assumption|].
  intros i s _ Hs. apply set_sponge_state; [assumption|].
  destruct Hs as [_ Hf].
  apply lxor_is_u32; [apply rotl32_is_u32; [|lia]|]; now apply get_is_u32.
Qed.

Lemma keccak_round_last st :
  length st = 25%nat ->
  get (keccak_round st) 24
  = Z.lxor (rotl32 (get st 24) 1) (get (keccak_round st) 0).
Proof.
  intros Hlen. rewrite (keccak_round_get st 0 Hlen) by lia.
  unfold keccak_round. change 25 with (24 + 1) at 1.
  rewrite for_range_succ by lia.
  destruct (keccak_round_prefix st 24 Hlen ltac:(lia)) as [Hl Hg].
  cbv zeta in Hl, Hg. rewrite get_set_eq by lia.
  change ((24 + 1) mod 25) with 0. rewrite !Hg by lia. reflexivity.
Qed.

Lemma get_beyond (st : list Z) i :
  Z.of_nat (length st) <= i -> get st i = 0.
Proof.
  intros H. unfold get. rewrite lookup_ge_None_2 by lia. reflexivity.
Qed.

Lemma rotl32_lxor a b n :
  is_u32 a -> is_u32 b -> 0 <= n < 32 ->
  rotl32 (Z.lxor a b) n = Z.lxor (rotl32 a n) (rotl32 b n).
Proof.
  intros Ha Hb Hn. apply Z.bits_inj'. intros i Hi.
  rewrite Z.lxor_spec, !rotl32_testbit, Z.lxor_spec
    by auto using lxor_is_u32.
  destruct (i <? 32); reflexivity.
Qed.

Lemma rotl32_rotl32 a m n :
  is_u32 a -> 0 <= m -> 0 <= n -> m + n < 32 ->
  rotl32 (rotl32 a m) n = rotl32 a (m + n).
Proof.
  intros Ha Hm Hn Hmn. apply Z.bits_inj'. intros i Hi.
  rewrite (rotl32_testbit (rotl32 a m)) by (auto using rotl32_is_u32 with lia).
  rewrite (rotl32_testbit a (m + n)) by (assumption || lia).
  destruct (Z.ltb_spec i 32) as [Hlt|]; cbn [andb]; [|reflexivity].
  assert (Hj : 0 <= (i - n) mod 32 < 32) by (apply Z.mod_pos_bound; lia).
  rewrite rotl32_testbit by (assumption || lia).
  destruct (Z.ltb_spec ((i - n) mod 32) 32); [|lia]. cbn [andb].
  rewrite Zminus_mod_idemp_l. f_equal. f_equal. lia.
Qed.

Lemma get_xor_state s t i :
  length s = length t ->
  get (xor_state s t) i = Z.lxor (get s i) (get t i).
Proof.
  intros Hlen. unfold get, xor_state. rewrite lookup_zip_with.
  destruct (s !! Z.to_nat i) as [x|] eqn:Es, (t !! Z.to_nat i) as [y|] eqn:Et;
    cbn; try reflexivity.
  - apply lookup_lt_Some in Es. apply lookup_ge_None_1 in Et. lia.
  - apply lookup_lt_Some in Et. apply lookup_ge_None_1 in Es. lia.
Qed.

Lemma xor_state_sponge_state s t :
  sponge_state s -> sponge_state t -> sponge_state (xor_state s t).
Proof.
  intros [Hs Fs] [Ht Ft]. split.
  - unfold xor_state. rewrite length_zip_with. lia.
  - apply Forall_lookup. intros i x E. unfold xor_state in E.
    rewrite lookup_zip_with in E.
    destruct (s !! i) as [a|] eqn:Ea; [|discriminate].
    destruct (t !! i) as [b|] eqn:Eb; [|discriminate].
    cbn in E. injection E as <-.
    rewrite Forall_lookup in Fs, Ft. apply lxor_is_u32; eauto.
Qed.

Lemma lxor_swap_inner a b c d :
  Z.lxor (Z.lxor a b) (Z.lxor c d) = Z.lxor (Z.lxor a c) (Z.lxor b d).
Proof.
  rewrite !Z.lxor_assoc. f_equal.
  rewrite <- !Z.lxor_assoc. f_equal. apply Z.lxor_comm.
Qed.

Lemma keccak_round_xor s t :
  sponge_state s -> sponge_state t ->
  keccak_round (xor_state s t) = xor_state (keccak_round s) (keccak_round t).
Proof.
  intros Hs Ht.
  pose proof (xor_state_sponge_state s t Hs Ht) as Hx.
  pose proof (keccak_round_sponge_state s Hs) as Hrs.
  pose proof (keccak_round_sponge_state t Ht) as Hrt.
  pose proof (xor_state_sponge_state _ _ Hrs Hrt) as Hrx.
  destruct Hs as [Ls Fs], Ht as [Lt Ft], Hx as [Lx Fx],
    Hrs as [Lrs Frs], Hrt as [Lrt Frt], Hrx as [Lrx Frx].
  assert (Hlow : forall i, 0 <= i < 24 ->
            get (keccak_round (xor_state s t)) i
            = get (xor_state (keccak_round s) (keccak_round t)) i).
  { intros i Hi. rewrite get_xor_state by lia.
    rewrite !keccak_round_get by (assumption || lia).
    rewrite !get_xor_state by lia.
    rewrite rotl32_lxor by (auto using get_is_u32 || lia).
    apply lxor_swap_inner. }
  apply list_eq_get; [rewrite keccak_round_length; lia|].
  intros i Hi. destruct (Z.lt_ge_cases i 24) as [|Hge]; [apply Hlow; lia|].
  destruct (Z.eq_dec i 24) as [->|Hne].
  - rewrite get_xor_state by lia.
    rewrite !keccak_round_last by assumption.
    rewrite (Hlow 0) by lia.
    rewrite !get_xor_state by lia.
    rewrite rotl32_lxor by (auto using get_is_u32 || lia).
    apply lxor_swap_inner.
  - rewrite !get_beyond; [reflexivity | lia | rewrite keccak_round_length; lia].
Qed.

Lemma iter_keccak_round_sponge_state k st :
  sponge_state st -> sponge_state (Nat.iter k keccak_round st).
Proof.
  intros Hst. induction k as [|k IH]; [assumption|].
  rewrite Nat.iter_succ. now apply keccak_round_sponge_state.
Qed.

Lemma keccak_f800_progpow_sponge_state st :
  sponge_state st -> sponge_state (keccak_f800_progpow st).
Proof.
  rewrite (keccak_f800_progpow_iter st). apply iter_keccak_round_sponge_state.
Qed.

Lemma keccak_f800_progpow_xor s t :
  sponge_state s -> sponge_state t ->
  keccak_f800_progpow (xor_state s t)
  = xor_state (keccak_f800_progpow s) (keccak_f800_progpow t).
Proof.
  intros Hs Ht.
  rewrite (keccak_f800_progpow_iter s), (keccak_f800_progpow_iter t),
    (keccak_f800_progpow_iter (xor_state s t)).
  generalize 22%nat. intros k. induction k as [|k IH]; [reflexivity|].
  rewrite !Nat.iter_succ, IH.
  apply keccak_round_xor; now apply iter_keccak_round_sponge_state.
Qed.

Lemma keccak_round_injective s t :
  sponge_state s -> sponge_state t ->
  keccak_round s = keccak_round t -> s = t.
Proof.
  intros [Ls Fs] [Lt Ft] E.
  assert (Hdown : forall n : nat, forall i, 24 - Z.of_nat n <= i <= 24 ->
            0 <= i -> get s i = get t i).
  { induction n as [|n IH]; intros i Hi Hi0.
    - assert (i = 24) as -> by lia.
      pose proof (keccak_round_last s Ls) as Hs.
      pose proof (keccak_round_last t Lt) as Ht.
      rewrite E, Ht in Hs. apply lxor_cancel_r in Hs.
      apply rotl32_injective in Hs; auto using get_is_u32 with lia.
    - destruct (Z.lt_ge_cases (24 - Z.of_nat n - 1) i) as [|Hle];
        [apply IH; lia|].
      pose proof (keccak_round_get s i Ls ltac:(lia)) as Hs.
      pose proof (keccak_round_get t i Lt ltac:(lia)) as Ht.
      rewrite E, Ht, (IH (i + 1)) in Hs by lia.
      apply lxor_cancel_r in Hs.
      apply rotl32_injective in Hs; auto using get_is_u32 with lia. }
  apply list_eq_get; [lia|]. intros i Hi.
  destruct (Z.lt_ge_cases i 25); [apply (Hdown 24%nat); lia|].
  rewrite !get_beyond by lia. reflexivity.
Qed.

Lemma keccak_f800_progpow_injective s t :
  sponge_state s -> sponge_state t ->
  keccak_f800_progpow s = keccak_f800_progpow t -> s = t.
Proof.
  intros Hs Ht.
  rewrite (keccak_f800_progpow_iter s), (keccak_f800_progpow_iter t).
  generalize 22%nat. intros k. induction k as [|k IH]; [trivial|].
  rewrite !Nat.iter_succ. intros E. apply IH.
  apply keccak_round_injective; auto using iter_keccak_round_sponge_state.
Qed.

(** ** What the first output words are made of *)

Lemma lxor_mid_cancel a c d :
  Z.lxor (Z.lxor a c) (Z.lxor c d) = Z.lxor a d.
Proof.
  rewrite Z.lxor_assoc, <- (Z.lxor_assoc c c d), Z.lxor_nilpotent, Z.lxor_0_l.
  reflexivity.
Qed.

Lemma shift_form_round : shift_form 1 23 keccak_round.
Proof.
  intros s Hs. split; [now apply keccak_round_sponge_state|].
  intros i Hi. apply keccak_round_get; [apply Hs | lia].
Qed.

Lemma shift_form_double k B f :
  shift_form k B f -> 0 < k -> k + k < 32 ->
  shift_form (k + k) (B - k) (fun s => f (f s)).
Proof.
  intros Hf Hk Hkk s Hs.
  destruct (Hf s Hs) as [Hfs Hg1].
  destruct (Hf (f s) Hfs) as [Hffs Hg2].
  split; [assumption|]. intros i Hi.
  rewrite Hg2, !Hg1 by lia.
  destruct Hs as [_ Fs].
  rewrite rotl32_lxor by (auto using get_is_u32, rotl32_is_u32 with lia).
  rewrite rotl32_rotl32 by (auto using get_is_u32 with lia).
  rewrite Z.add_assoc. apply lxor_mid_cancel.
Qed.

Lemma shift_form_round2 : shift_form 2 22 round2.
Proof. apply (shift_form_double 1 23 _ shift_form_round); lia. Qed.

Lemma shift_form_round4 : shift_form 4 20 round4.
Proof. apply (shift_form_double 2 22 _ shift_form_round2); lia. Qed.

Lemma shift_form_round8 : shift_form 8 16 round8.
Proof. apply (shift_form_double 4 20 _ shift_form_round4); lia. Qed.

Lemma shift_form_round16 : shift_form 16 8 round16.
Proof. apply (shift_form_double 8 16 _ shift_form_round8); lia. Qed.

Lemma keccak_f800_progpow_rounds st :
  keccak_f800_progpow st = round2 (round4 (round16 st)).
Proof.
  rewrite (keccak_f800_progpow_iter st).
  unfold round16, round8, round4, round2.
  repeat rewrite Nat.iter_succ. reflexivity.
Qed.

Lemma keccak_f800_progpow_low_words s i :
  sponge_state s -> 0 <= i <= 2 ->
  get (keccak_f800_progpow s) i
  = Z.lxor
      (rotl32
         (Z.lxor
            (rotl32 (Z.lxor (rotl32 (get s i) 16) (get s (i + 16))) 4)
            (Z.lxor (rotl32 (get s (i + 4)) 16) (get s (i + 4 + 16)))) 2)
      (Z.lxor
         (rotl32 (Z.lxor (rotl32 (get s (i + 2)) 16) (get s (i + 2 + 16))) 4)
         (Z.lxor (rotl32 (get s (i + 2 + 4)) 16) (get s (i + 2 + 4 + 16)))).
Proof.
  intros Hs Hi. rewrite keccak_f800_progpow_rounds.
  destruct (shift_form_round16 s Hs) as [H16 G16].
  destruct (shift_form_round4 _ H16) as [H4 G4].
  destruct (shift_form_round2 _ H4) as [_ G2].
  rewrite G2, !G4, !G16 by lia. reflexivity.
Qed.

(** ** What the digest depends on *)

Lemma load32_is_u32 data i : is_u32 (load32 data i).
Proof.
  rewrite load32_sum.
  pose proof (byte_val_range (data (4 * i))).
  pose proof (byte_val_range (data (4 * i + 1))).
  pose proof (byte_val_range (data (4 * i + 2))).
  pose proof (byte_val_range (data (4 * i + 3))).
  unfold is_u32. lia.
Qed.

Lemma load32_ext d1 d2 i :
  (forall j, 4 * i <= j < 4 * i + 4 -> d1 j = d2 j) ->
  load32 d1 i = load32 d2 i.
Proof.
  intros H. unfold load32. rewrite !H by lia. reflexivity.
Qed.

Lemma absorb_sponge_state words data len :
  sponge_state (absorb words data len).
Proof.
  unfold absorb. apply (for_range_invariant sponge_state).
  - split; [apply length_replicate|]. apply Forall_replicate.
    unfold is_u32. lia.
  - intros i s _ Hs. apply set_sponge_state; [assumption|].
    apply load32_is_u32.
Qed.

Lemma absorb_get_words words data len i :
  words <= 25 -> 0 <= i ->
  get (absorb words data len) i
  = if i <? absorbed_words words len then load32 data i else 0.
Proof. apply absorb_get. Qed.

(** The digest is a function of the first two output words of the first
    pass and of the state absorbed for the final pass. *)
Lemma kawpow_slow_hash_ext sh1 sh2 d1 d2 l1 l2 :
  get (keccak_f800_progpow (absorb 18 d1 l1)) 0
  = get (keccak_f800_progpow (absorb 18 d2 l2)) 0 ->
  get (keccak_f800_progpow (absorb 18 d1 l1)) 1
  = get (keccak_f800_progpow (absorb 18 d2 l2)) 1 ->
  absorb 8 d1 l1 = absorb 8 d2 l2 ->
  kawpow_slow_hash sh1 d1 l1 = kawpow_slow_hash sh2 d2 l2.
Proof.
  intros E0 E1 E8. unfold kawpow_slow_hash. cbv zeta.
  rewrite E0, E1, E8. reflexivity.
Qed.

Lemma kawpow_slow_hash_words sh1 sh2 d1 d2 l1 l2 :
  absorbed_words 18 l1 = absorbed_words 18 l2 ->
  (forall i, 0 <= i < absorbed_words 18 l1 -> i < 8 \/ 16 <= i ->
     load32 d1 i = load32 d2 i) ->
  kawpow_slow_hash sh1 d1 l1 = kawpow_slow_hash sh2 d2 l2.
Proof.
  intros Hn Hw.
  assert (Hget : forall j, 0 <= j -> j < 8 \/ 16 <= j ->
            get (absorb 18 d1 l1) j = get (absorb 18 d2 l2) j).
  { intros j Hj Hsel. rewrite !absorb_get_words by lia. rewrite <- Hn.
    destruct (Z.ltb_spec j (absorbed_words 18 l1)); [|reflexivity].
    apply Hw; lia. }
  apply kawpow_slow_hash_ext.
  - rewrite !keccak_f800_progpow_low_words
      by (apply absorb_sponge_state || lia).
    rewrite ?(Hget 0), ?(Hget (0 + 16)), ?(Hget (0 + 4)), ?(Hget (0 + 4 + 16)),
      ?(Hget (0 + 2)), ?(Hget (0 + 2 + 16)), ?(Hget (0 + 2 + 4)),
      ?(Hget (0 + 2 + 4 + 16)) by lia.
    reflexivity.
  - rewrite !keccak_f800_progpow_low_words
      by (apply absorb_sponge_state || lia).
    rewrite ?(Hget 1), ?(Hget (1 + 16)), ?(Hget (1 + 4)), ?(Hget (1 + 4 + 16)),
      ?(Hget (1 + 2)), ?(Hget (1 + 2 + 16)), ?(Hget (1 + 2 + 4)),
      ?(Hget (1 + 2 + 4 + 16)) by lia.
    reflexivity.
  - apply list_eq_get; [now rewrite !absorb_length|].
    intros j Hj. rewrite !absorb_get_words by lia.
    assert (E8 : absorbed_words 8 l1 = absorbed_words 8 l2).
    { unfold absorbed_words in *. lia. }
    rewrite <- E8.
    destruct (Z.ltb_spec j (absorbed_words 8 l1)) as [Hlt|]; [|reflexivity].
    apply Hw; unfold absorbed_words in *; lia.
Qed.

(** ** The register file keeps its shape *)

Lemma keeps_shape_ret {A : Type} (x : A) (Q : A -> Prop) :
  Q x -> keeps_shape (ret x) Q.
Proof. intros Hx s Hs. split; assumption. Qed.

Lemma keeps_shape_bind {A B : Type} (c : M A) (k : A -> M B)
    (Q : A -> Prop) (R : B -> Prop) :
  keeps_shape c Q -> (forall x, Q x -> keeps_shape (k x) R) ->
  keeps_shape (bind c k) R.
Proof.
  intros Hc Hk s Hs. unfold bind.
  destruct (Hc s Hs) as [Hq Hs1]. destruct (c s) as [x s1].
  cbn [fst snd] in *. now apply Hk.
Qed.

Lemma keeps_shape_weaken {A : Type} (c : M A) (Q R : A -> Prop) :
  keeps_shape c Q -> (forall x, Q x -> R x) -> keeps_shape c R.
Proof.
  intros Hc HQR s Hs. destruct (Hc s Hs). split; auto.
Qed.

Lemma keeps_shape_rnd : keeps_shape rnd is_u32.
Proof.
  intros s (Hl & Hr & Hj). unfold rnd.
  destruct (kiss99_is_u32 (prog_rnd s) Hj) as (Ho & _ & _ & Hj1 & _).
  destruct (kiss99 (prog_rnd s)) as [x r]. cbn [fst snd] in *.
  split; [assumption|]. split; [|split]; cbn [mix prog_rnd]; assumption.
Qed.

Lemma row_is_u32 (m : list (list Z)) l i :
  Forall (fun regs => length regs = Z.to_nat KAWPOW_REGS
                      /\ Forall is_u32 regs) m ->
  is_u32 (get (row m l) i).
Proof.
  intros Hm. apply get_is_u32. unfold row.
  destruct (m !! Z.to_nat l) as [regs|] eqn:E; cbn.
  - rewrite Forall_lookup in Hm. apply (Hm _ _ E).
  - apply Forall_nil_2.
Qed.

Lemma keeps_shape_reg l i : keeps_shape (reg l i) is_u32.
Proof.
  intros s Hs. unfold reg. cbn [fst snd]. split; [|assumption].
  apply row_is_u32. apply Hs.
Qed.

Lemma keeps_shape_set_reg l i v :
  is_u32 v -> keeps_shape (set_reg l i v) (fun _ => True).
Proof.
  intros Hv s (Hl & Hr & Hj). unfold set_reg. cbn [fst snd].
  split; [trivial|]. split; [|split]; cbn [mix prog_rnd].
  - now rewrite length_insert.
  - unfold row. destruct (mix s !! Z.to_nat l) as [regs|] eqn:E; cbn.
    + apply Forall_insert; [assumption|].
      rewrite Forall_lookup in Hr. destruct (Hr _ _ E) as [Hlen Hf].
      split; [now rewrite length_set|]. unfold set. now apply Forall_insert.
    + apply lookup_ge_None_1 in E. now rewrite list_insert_ge by lia.
  - assumption.
Qed.

Lemma keeps_shape_for lo hi (body : Z -> M unit) :
  (forall i, keeps_shape (body i) (fun _ => True)) ->
  keeps_shape (for_ lo hi body) (fun _ => True).
Proof.
  intros Hb s Hs. unfold for_. cbn [fst snd]. split; [trivial|].
  apply (for_range_invariant mix_shape); [assumption|].
  intros i s1 _ Hs1. apply (Hb i s1 Hs1).
Qed.

Lemma keeps_shape_when (c : bool) (body : M unit) :
  keeps_shape body (fun _ => True) -> keeps_shape (when_ c body) (fun _ => True).
Proof.
  intros Hb. unfold when_. destruct c; [assumption|].
  now apply keeps_shape_ret.
Qed.

Lemma keeps_shape_math_op : keeps_shape math_op (fun _ => True).
Proof.
  unfold math_op.
  apply (keeps_shape_bind _ _ is_u32); [apply keeps_shape_rnd | intros r1 H1].
  apply (keeps_shape_bind _ _ is_u32); [apply keeps_shape_rnd | intros r2 H2].
  apply (keeps_shape_bind _ _ is_u32); [apply keeps_shape_rnd | intros r3 H3].
  apply (keeps_shape_bind _ _ is_u32); [apply keeps_shape_rnd | intros sel1 Hs1].
  apply (keeps_shape_bind _ _ is_u32); [apply keeps_shape_rnd | intros sel2 Hs2].
  apply keeps_shape_for. intros l.
  apply (keeps_shape_bind _ _ is_u32); [apply keeps_shape_reg | intros a Ha].
  apply (keeps_shape_bind _ _ is_u32); [apply keeps_shape_reg | intros b Hb].
  apply (keeps_shape_bind _ _ is_u32); [apply keeps_shape_reg | intros d Hd].
  apply keeps_shape_set_reg.
  apply kawpow_merge_is_u32; auto using kawpow_math_is_u32.
Qed.

Lemma keeps_shape_cache_op : keeps_shape cache_op (fun _ => True).
Proof.
  unfold cache_op.
  apply (keeps_shape_bind _ _ is_u32); [apply keeps_shape_rnd | intros r1 H1].
  apply (keeps_shape_bind _ _ is_u32); [apply keeps_shape_rnd | intros r2 H2].
  apply (keeps_shape_bind _ _ is_u32); [apply keeps_shape_rnd | intros sel Hs].
  apply keeps_shape_for. intros l.
  apply (keeps_shape_bind _ _ is_u32); [apply keeps_shape_reg | intros a Ha].
  apply (keeps_shape_bind _ _ is_u32); [apply keeps_shape_reg | intros d Hd].
  apply keeps_shape_set_reg.
  apply kawpow_merge_is_u32; auto using fnv1a_is_u32.
Qed.

Lemma dag_data_is_u32 m loop l i : is_u32 (get (row (dag_data m loop) l) i).
Proof.
  apply get_is_u32. unfold row, dag_data.
  rewrite list_lookup_fmap.
  destruct (List.map Z.of_nat (seq 0 (Z.to_nat KAWPOW_LANES)) !! Z.to_nat l)
    as [l'|]; cbn; [|apply Forall_nil_2].
  apply Forall_fmap, Forall_forall. intros j _. apply fnv1a_is_u32.
Qed.

Lemma keeps_shape_dag_merge m loop i :
  keeps_shape (dag_merge (dag_data m loop) i) (fun _ => True).
Proof.
  unfold dag_merge.
  apply (keeps_shape_bind _ _ is_u32).
  { destruct (i =? 0).
    - apply keeps_shape_ret. unfold is_u32. lia.
    - apply (keeps_shape_bind _ _ is_u32); [apply keeps_shape_rnd|].
      intros r Hr. apply keeps_shape_ret. unfold is_u32, KAWPOW_REGS.
      pose proof (Z.mod_pos_bound r 32 ltac:(lia)). lia. }
  intros dst Hdst.
  apply (keeps_shape_bind _ _ is_u32); [apply keeps_shape_rnd | intros sel Hs].
  apply keeps_shape_for. intros l.
  apply (keeps_shape_bind _ _ is_u32); [apply keeps_shape_reg | intros d Hd].
  apply keeps_shape_set_reg.
  apply kawpow_merge_is_u32; auto using dag_data_is_u32.
Qed.

Lemma keeps_shape_main_loop : keeps_shape main_loop (fun _ => True).
Proof.
  unfold main_loop. apply keeps_shape_for. intros loop.
  apply (keeps_shape_bind _ _
           (fun dag => exists m, dag = dag_data m loop)).
  { intros s Hs. cbn [fst snd]. split; [now exists (mix s) | assumption]. }
  intros dag [m ->].
  apply (keeps_shape_bind _ _ (fun _ => True)).
  - apply keeps_shape_for. intros i.
    apply (keeps_shape_bind _ _ (fun _ => True)).
    + apply keeps_shape_when, keeps_shape_math_op.
    + intros _ _. apply keeps_shape_when, keeps_shape_cache_op.
  - intros _ _. apply keeps_shape_for. intros i. apply keeps_shape_dag_merge.
Qed.

Lemma prog_rnd_init_is_u32 seed : is_u32 (jsr (prog_rnd_init seed)).
Proof. unfold prog_rnd_init. cbn [jsr]. apply fnv1a_is_u32. Qed.

Lemma initial_mix_shape seed :
  mix_shape
    (HState (List.map (fun l => kawpow_fill_mix seed l)
               (List.map Z.of_nat (seq 0 (Z.to_nat KAWPOW_LANES))))
            (prog_rnd_init prog_seed)).
Proof.
  split; [|split]; cbn [mix prog_rnd].
  - now rewrite !length_map, length_seq.
  - apply Forall_fmap, Forall_forall. intros l _. cbn.
    apply kawpow_fill_mix_shape.
  - apply prog_rnd_init_is_u32.
Qed.

(** ** Epochs *)

Lemma kawpow_seedheight_bracket h :
  is_u64 h ->
  kawpow_seedheight h <= h < kawpow_seedheight h + KAWPOW_EPOCH_LENGTH
  /\ kawpow_seedheight h mod KAWPOW_EPOCH_LENGTH = 0.
Proof.
  intros Hh. rewrite (kawpow_seedheight_eq h Hh). unfold KAWPOW_EPOCH_LENGTH.
  pose proof (Z.div_mod h 7500 ltac:(lia)) as Hd.
  pose proof (Z.mod_pos_bound h 7500 ltac:(lia)) as Hm.
  split; [lia|]. apply Z.mod_mul. lia.
Qed.

Lemma kawpow_seedheights_next h :
  is_u64 h ->
  fst (kawpow_seedheights h) = kawpow_seedheight h
  /\ (h < 18446744073709545000 ->
      snd (kawpow_seedheights h) = kawpow_seedheight h + KAWPOW_EPOCH_LENGTH
      /\ kawpow_seedheight (snd (kawpow_seedheights h))
         = snd (kawpow_seedheights h))
  /\ (18446744073709545000 <= h ->
      kawpow_seedheights h = (18446744073709545000, 884)).
Proof.
  intros Hh. unfold kawpow_seedheights. cbn [fst snd].
  split; [reflexivity|].
  pose proof (kawpow_seedheight_eq h Hh) as E.
  unfold KAWPOW_EPOCH_LENGTH, is_u64 in *.
  pose proof (Z.div_mod h 7500 ltac:(lia)) as Hd.
  pose proof (Z.mod_pos_bound h 7500 ltac:(lia)) as Hm.
  split.
  - intros Hlt.
    assert (Hq : h / 7500 < 2459565876494606)
      by (apply Z.div_lt_upper_bound; lia).
    assert (Hs : u64 (kawpow_seedheight h + 7500) = kawpow_seedheight h + 7500).
    { unfold u64. apply Z.mod_small. lia. }
    rewrite Hs. split; [reflexivity|].
    rewrite kawpow_seedheight_eq by (unfold is_u64; lia).
    unfold KAWPOW_EPOCH_LENGTH. rewrite E.
    replace (h / 7500 * 7500 + 7500) with ((h / 7500 + 1) * 7500) by lia.
    now rewrite Z.div_mul by lia.
  - intros Hge.
    assert (Hq : h / 7500 = 2459565876494606).
    { symmetry. apply Z.div_unique with (h - 18446744073709545000); lia. }
    rewrite E, Hq. reflexivity.
Qed.

(** ** The seed hash in the log *)

Lemma hex_byte_digits b :
  hex_byte (hex_digit (Z.shiftr (byte_val b) 4))
           (hex_digit (Z.land (byte_val b) 15)) = b.
Proof. destruct b; reflexivity. Qed.

Lemma hex_pairs_injective (h1 h2 : list byte) :
  length h1 = length h2 ->
  flat_map (fun b => [hex_digit (Z.shiftr (byte_val b) 4);
                      hex_digit (Z.land (byte_val b) 15)]) h1
  = flat_map (fun b => [hex_digit (Z.shiftr (byte_val b) 4);
                        hex_digit (Z.land (byte_val b) 15)]) h2 ->
  h1 = h2.
Proof.
  revert h2. induction h1 as [|b1 h1 IH]; intros [|b2 h2] Hlen E;
    try discriminate; [reflexivity|].
  cbn [flat_map app] in E. injection E as Ehi Elo E.
  f_equal.
  - rewrite <- (hex_byte_digits b1), <- (hex_byte_digits b2), Ehi, Elo.
    reflexivity.
  - apply IH; [cbn [length] in Hlen; lia | assumption].
Qed.

Lemma string_of_list_ascii_length l :
  String.length (string_of_list_ascii l) = length l.
Proof. induction l as [|c l IH]; cbn; [reflexivity | now rewrite IH]. Qed.

Lemma hex_pairs_length (h : list byte) :
  length (flat_map (fun b => [hex_digit (Z.shiftr (byte_val b) 4);
                              hex_digit (Z.land (byte_val b) 15)]) h)
  = (2 * length h)%nat.
Proof. induction h as [|b h IH]; cbn [flat_map app length]; lia. Qed.

Lemma hash2hex_length h :
  length h = 32%nat -> String.length (hash2hex h) = 64%nat.
Proof.
  intros Hlen. unfold hash2hex.
  rewrite string_of_list_ascii_length, hex_pairs_length.
  change (Z.to_nat HASH_SIZE) with 32%nat. rewrite (take_all h 32 Hlen). lia.
Qed.

Lemma hash2hex_injective_32 h1 h2 :
  length h1 = 32%nat -> length h2 = 32%nat ->
  hash2hex h1 = hash2hex h2 -> h1 = h2.
Proof.
  intros H1 H2 E. unfold hash2hex in E.
  change (Z.to_nat HASH_SIZE) with 32%nat in E.
  rewrite (take_all h1 32 H1), (take_all h2 32 H2) in E.
  apply (f_equal list_ascii_of_string) in E.
  rewrite !list_ascii_of_string_of_list_ascii in E.
  apply hex_pairs_injective; [lia | assumption].
Qed.

(** ** Sequences of calls *)

Lemma exec_globals_ok c g :
  globals_ok g -> call_ok c ->
  globals_ok (snd (exec c g))
  /\ main_cache (snd (exec c g)) = main_cache g
  /\ main_dataset (snd (exec c g)) = main_dataset g.
Proof.
  intros (Hlock & Hlen & Hset) Hc.
  destruct c; cbn [exec snd call_ok] in *;
    unfold globals_ok, kawpow_slow_hash_allocate_state,
      kawpow_slow_hash_free_state, kawpow_set_main_seedhash,
      kawpow_set_miner_thread, unlock_write, lock_write, store_seedhash;
    unfold emit;
    cbn [main_cache_locked main_seedhash main_seedhash_set main_cache
         main_dataset];
    repeat split; try assumption.
  - rewrite length_take. lia.
  - now right.
Qed.

Lemma run_globals_ok cs g :
  globals_ok g -> Forall call_ok cs ->
  globals_ok (run cs g)
  /\ main_cache (run cs g) = main_cache g
  /\ main_dataset (run cs g) = main_dataset g.
Proof.
  intros Hg Hcs. revert g Hg.
  induction Hcs as [|c cs Hc _ IH]; intros g Hg.
  - cbn. repeat split; apply Hg.
  - unfold run. cbn [fold_left]. fold (run cs (snd (exec c g))).
    destruct (exec_globals_ok c g Hg Hc) as (Hg1 & Hc1 & Hd1).
    destruct (IH _ Hg1) as (Hg2 & Hc2 & Hd2).
    split; [assumption|]. split; congruence.
Qed.

Lemma is_main_after_set seedhash other threads g :
  length seedhash = 32%nat -> length other = 32%nat ->
  is_main other (kawpow_set_main_seedhash seedhash threads g) = true
  <-> other = seedhash.
Proof.
  intros H1 H2. unfold is_main, kawpow_set_main_seedhash, unlock_write,
    lock_write, store_seedhash. unfold emit.
  cbn [main_seedhash main_seedhash_set].
  change (Z.to_nat HASH_SIZE) with 32%nat.
  rewrite (take_all seedhash 32 H1), (take_all other 32 H2).
  cbn [Z.eqb negb andb]. apply bool_decide_eq_true.
Qed.

(** ** Folding the lanes *)

Lemma final_digest_pairs d :
  final_digest d
  = List.map (fun k => fnv1a (fnv1a FNV_OFFSET_BASIS (get d k)) (get d (k + 8)))
             [0; 1; 2; 3; 4; 5; 6; 7].
Proof.
  unfold final_digest, for_range.
  change (Z.to_nat (KAWPOW_LANES - 0)) with 16%nat.
  cbn [seq fold_left List.map replicate].
  repeat match goal with
  | |- context [?a mod 8] =>
      let v := eval cbv in (a mod 8) in change (a mod 8) with v
  end.
  cbv [set get list_insert]. cbn. reflexivity.
Qed.

(** ** The cache of the external library *)

Lemma write32_pattern_get n (p : buffer) j :
  0 <= n ->
  for_range 0 n
    (fun k p => write32 p (32 * k) (u32 (Z.lxor (32 * k) 0xCAFEBABE))) p j
  = if (0 <=? j) && (j <? 32 * n) && (j mod 32 <? 4)
    then cache_pattern j else p j.
Proof.
  intros Hn. replace n with (Z.of_nat (Z.to_nat n)) by lia.
  generalize (Z.to_nat n). clear n Hn. intros n.
  induction n as [|n IH].
  - rewrite for_range_nil by lia.
    destruct (Z.leb_spec 0 j), (Z.ltb_spec j (32 * Z.of_nat 0));
      cbn [andb]; try reflexivity; lia.
  - replace (Z.of_nat (S n)) with (Z.of_nat n + 1) by lia.
    rewrite for_range_succ by lia. unfold write32 at 1.
    pose proof (Z.mod_pos_bound j 32 ltac:(lia)) as Hm.
    pose proof (Z.div_mod j 32 ltac:(lia)) as Hd.
    destruct (Z.leb_spec (32 * Z.of_nat n) j) as [Hlo|Hlo];
      destruct (Z.ltb_spec j (32 * Z.of_nat n + 4)) as [Hhi|Hhi];
      cbn [andb].
    + assert (Hq : j / 32 = Z.of_nat n).
      { symmetry. apply Z.div_unique with (j - 32 * Z.of_nat n); lia. }
      assert (Hr : j mod 32 = j - 32 * Z.of_nat n) by lia.
      destruct (Z.leb_spec 0 j), (Z.ltb_spec j (32 * (Z.of_nat n + 1))),
        (Z.ltb_spec (j mod 32) 4); cbn [andb]; try lia.
      unfold cache_pattern. rewrite Hr.
      replace (j - (j - 32 * Z.of_nat n)) with (32 * Z.of_nat n) by lia.
      reflexivity.
    + rewrite IH.
      destruct (Z.leb_spec 0 j), (Z.ltb_spec j (32 * Z.of_nat n)),
        (Z.ltb_spec j (32 * (Z.of_nat n + 1))), (Z.ltb_spec (j mod 32) 4);
        cbn [andb]; try reflexivity; lia.
    + rewrite IH.
      destruct (Z.leb_spec 0 j), (Z.ltb_spec j (32 * Z.of_nat n)),
        (Z.ltb_spec j (32 * (Z.of_nat n + 1))), (Z.ltb_spec (j mod 32) 4);
        cbn [andb]; try reflexivity; lia.
    + lia.
Qed.

Lemma kawpow_init_cache_content d size key keySize j :
  0 < size -> size mod 32 = 0 -> 0 <= j < size ->
  exists d',
    kawpow_init_cache (Some (KawpowCache (Some d) size)) key keySize
    = Some (KawpowCache (Some d') size)
    /\ d' j
       = if j mod 32 <? 4 then cache_pattern j
         else match key with
              | Some k => if j <? keySize then k j else x00
              | None => x00
              end.
Proof.
  intros Hsize Hmod Hj. unfold kawpow_init_cache. cbn [cache_data cache_size].
  eexists. split; [reflexivity|].
  assert (Hn : (size + 31) / 32 = size / 32).
  { pose proof (Z.div_mod size 32 ltac:(lia)) as Hd. rewrite Hmod in Hd.
    symmetry. apply Z.div_unique with 31; lia. }
  assert (H32 : 32 * (size / 32) = size).
  { pose proof (Z.div_mod size 32 ltac:(lia)). lia. }
  rewrite write32_pattern_get, Hn, H32
    by (rewrite Hn; apply Z.div_pos; lia).
  destruct (Z.leb_spec 0 j), (Z.ltb_spec j size); try lia. cbn [andb].
  destruct (Z.ltb_spec (j mod 32) 4); [reflexivity|].
  destruct key as [k|].
  - destruct (Z.ltb_spec 0 keySize).
    + unfold memcpy, memset0.
      destruct (Z.ltb_spec keySize size), (Z.leb_spec 0 j),
        (Z.ltb_spec j keySize), (Z.ltb_spec j size);
        cbn [andb]; try reflexivity; lia.
    + unfold memset0.
      destruct (Z.leb_spec 0 j), (Z.ltb_spec j size), (Z.ltb_spec j keySize);
        cbn [andb]; try reflexivity; lia.
  - unfold memset0.
    destruct (Z.leb_spec 0 j), (Z.ltb_spec j size); cbn [andb];
      try reflexivity; lia.
Qed.

Lemma fnv1a_injective_h h1 h2 d :
  is_u32 h1 -> is_u32 h2 -> is_u32 d -> fnv1a h1 d = fnv1a h2 d -> h1 = h2.
Proof.
  intros H1 H2 Hd E. unfold fnv1a in E.
  apply (u32_mul_cancel FNV_PRIME 899433627) in E;
    auto using lxor_is_u32.
  now apply lxor_cancel_r in E.
Qed.

Lemma absorbed_words_long words len :
  0 <= words <= 18 -> 72 <= len < 2 ^ 33 -> absorbed_words words len = words.
Proof.
  intros Hw Hl. unfold absorbed_words.
  assert (18 <= len / 4 < 2 ^ 31).
  { split; [apply Z.div_le_lower_bound; lia|].
    apply Z.div_lt_upper_bound; lia. }
  rewrite to_int_small by lia. lia.
Qed.

Lemma absorbed_words_short words len :
  0 <= words -> 0 <= len < 4 -> absorbed_words words len = 0.
Proof.
  intros Hw Hl. unfold absorbed_words.
  rewrite (Z.div_small len 4) by lia. change (to_int 0) with 0. lia.
Qed.


(** * Further properties, read off the code *)

(** X1. One step of [fnv1a] loses nothing: on 32-bit words it is
    one-to-one in the data word for a fixed hash word, and one-to-one in
    the hash word for a fixed data word. *)
Theorem fnv1a_one_to_one
    (h h' d d' : Z) (Hh : is_u32 h) (Hh' : is_u32 h')
    (Hd : is_u32 d) (Hd' : is_u32 d') :
  (fnv1a h d = fnv1a h d' -> d = d')
  /\ (fnv1a h d = fnv1a h' d -> h = h').
Proof.
  split; intros E.
  - now apply (fnv1a_injective h d d').
  - now apply (fnv1a_injective_h h h' d).
Qed.

Lemma fnv1a_one_to_one_witness :
  is_u32 1 /\ is_u32 2 /\ is_u32 3 /\ is_u32 4
  /\ (fnv1a 1 3 = fnv1a 1 4 -> 3 = 4).
Proof.
  assert (H1 : is_u32 1) by (unfold is_u32; lia).
  assert (H2 : is_u32 2) by (unfold is_u32; lia).
  assert (H3 : is_u32 3) by (unfold is_u32; lia).
  assert (H4 : is_u32 4) by (unfold is_u32; lia).
  split; [exact H1|]. split; [exact H2|]. split; [exact H3|].
  split; [exact H4|].
  apply (fnv1a_one_to_one 1 2 3 4 H1 H2 H3 H4).
Defined.

(** X2. [kiss99] stays within 32 bits: from a state whose shift register
    is a 32-bit word, the value drawn and all four components of the next
    state are 32-bit words. *)
Theorem kiss99_stays_32bit (st : kiss99_t) (Hj : is_u32 (jsr st)) :
  is_u32 (fst (kiss99 st))
  /\ is_u32 (z (snd (kiss99 st))) /\ is_u32 (w (snd (kiss99 st)))
  /\ is_u32 (jsr (snd (kiss99 st))) /\ is_u32 (jcong (snd (kiss99 st))).
Proof. now apply kiss99_is_u32. Qed.

Lemma kiss99_stays_32bit_witness :
  is_u32 (jsr (Kiss99 362436069 521288629 123456789 380116160))
  /\ is_u32 (fst (kiss99 (Kiss99 362436069 521288629 123456789 380116160))).
Proof.
  assert (H : is_u32 (jsr (Kiss99 362436069 521288629 123456789 380116160)))
    by (cbn [jsr]; unfold is_u32; lia).
  split; [exact H|].
  apply (kiss99_stays_32bit _ H).
Defined.

(** X3. The two multiply-with-carry lanes of [kiss99] never wrap: on
    32-bit [z] and [w] the next [z] is exactly
    [36969 * (z mod 2^16) + z / 2^16] and the next [w] exactly
    [18000 * (w mod 2^16) + w / 2^16]. *)
Theorem kiss99_carry_lanes_exact
    (st : kiss99_t) (Hz : is_u32 (z st)) (Hw : is_u32 (w st)) :
  z (snd (kiss99 st)) = 36969 * (z st mod 2 ^ 16) + z st / 2 ^ 16
  /\ w (snd (kiss99 st)) = 18000 * (w st mod 2 ^ 16) + w st / 2 ^ 16.
Proof. now apply kiss99_mwc. Qed.

Lemma kiss99_carry_lanes_exact_witness :
  is_u32 (z (Kiss99 0xffffffff 0xffffffff 1 1))
  /\ is_u32 (w (Kiss99 0xffffffff 0xffffffff 1 1))
  /\ z (snd (kiss99 (Kiss99 0xffffffff 0xffffffff 1 1)))
     = 36969 * (0xffffffff mod 2 ^ 16) + 0xffffffff / 2 ^ 16.
Proof.
  assert (H : is_u32 0xffffffff) by (unfold is_u32; lia).
  split; [exact H|]. split; [exact H|].
  apply (kiss99_carry_lanes_exact (Kiss99 0xffffffff 0xffffffff 1 1) H H).
Defined.

(** X4. The shift-register lane of [kiss99] is zero after a draw exactly
    when it was zero before: a zero lane stays dead, a live lane never
    dies. *)
Theorem kiss99_shift_register_zero (st : kiss99_t) (Hj : is_u32 (jsr st)) :
  jsr (snd (kiss99 st)) = 0 <-> jsr st = 0.
Proof. now apply kiss99_jsr_zero. Qed.

Lemma kiss99_shift_register_zero_witness :
  is_u32 (jsr (Kiss99 1 2 0 3))
  /\ (jsr (snd (kiss99 (Kiss99 1 2 0 3))) = 0 <-> jsr (Kiss99 1 2 0 3) = 0).
Proof.
  assert (H : is_u32 (jsr (Kiss99 1 2 0 3)))
    by (cbn [jsr]; unfold is_u32; lia).
  split; [exact H|].
  apply (kiss99_shift_register_zero _ H).
Defined.

(** X5. [rotl32] and [rotr32] undo each other: for a 32-bit word and an
    amount from 0 to 31, rotating left and then right by the same amount,
    or right and then left, gives the word back. *)
Theorem rotations_undo_each_other
    (a n : Z) (Ha : is_u32 a) (Hn : 0 <= n < 32) :
  rotr32 (rotl32 a n) n = a /\ rotl32 (rotr32 a n) n = a.
Proof. split; [now apply rotr32_rotl32 | now apply rotl32_rotr32]. Qed.

Lemma rotations_undo_each_other_witness :
  is_u32 0x80000001 /\ 0 <= 7 < 32
  /\ rotl32 0x80000001 7 = 0xc0
  /\ rotr32 0x80000001 7 = 0x03000000
  /\ rotr32 (rotl32 0x80000001 7) 7 = 0x80000001
  /\ rotl32 (rotr32 0x80000001 7) 7 = 0x80000001.
Proof.
  assert (H : is_u32 0x80000001) by (unfold is_u32; lia).
  assert (Hn : 0 <= 7 < 32) by lia.
  split; [exact H|]. split; [exact Hn|].
  split; [reflexivity|]. split; [reflexivity|].
  exact (rotations_undo_each_other 0x80000001 7 H Hn).
Defined.

(** X6. [kawpow_math] returns a 32-bit word for all 32-bit operands and
    every selector. *)
Theorem kawpow_math_32bit (a b r : Z) (Ha : is_u32 a) (Hb : is_u32 b) :
  is_u32 (kawpow_math a b r).
Proof. now apply kawpow_math_is_u32. Qed.

Lemma kawpow_math_32bit_witness :
  is_u32 0xffffffff /\ is_u32 (kawpow_math 0xffffffff 0xffffffff 1).
Proof.
  assert (H : is_u32 0xffffffff) by (unfold is_u32; lia).
  split; [exact H|].
  apply (kawpow_math_32bit 0xffffffff 0xffffffff 1 H H).
Defined.

(** X7. [kawpow_merge] keeps the entropy of both operands: for a fixed
    selector it is one-to-one in the destination word [a] for a fixed [b],
    and one-to-one in the merged-in word [b] for a fixed [a]. *)
Theorem kawpow_merge_one_to_one
    (a a' b b' r : Z) (Ha : is_u32 a) (Ha' : is_u32 a')
    (Hb : is_u32 b) (Hb' : is_u32 b') (Hr : is_u32 r) :
  (kawpow_merge a b r = kawpow_merge a' b r -> a = a')
  /\ (kawpow_merge a b r = kawpow_merge a b' r -> b = b').
Proof.
  split; intros E.
  - now apply (kawpow_merge_injective_dst a a' b r).
  - now apply (kawpow_merge_injective_src a b b' r).
Qed.

Lemma kawpow_merge_one_to_one_witness :
  is_u32 5 /\ is_u32 6 /\ is_u32 7 /\ is_u32 8 /\ is_u32 0x00030002
  /\ (kawpow_merge 5 7 0x00030002 = kawpow_merge 6 7 0x00030002 -> 5 = 6).
Proof.
  assert (H5 : is_u32 5) by (unfold is_u32; lia).
  assert (H6 : is_u32 6) by (unfold is_u32; lia).
  assert (H7 : is_u32 7) by (unfold is_u32; lia).
  assert (H8 : is_u32 8) by (unfold is_u32; lia).
  assert (Hr : is_u32 0x00030002) by (unfold is_u32; lia).
  split; [exact H5|]. split; [exact H6|]. split; [exact H7|].
  split; [exact H8|]. split; [exact Hr|].
  apply (kawpow_merge_one_to_one 5 6 7 8 0x00030002 H5 H6 H7 H8 Hr).
Defined.

(** X8. [kawpow_fill_mix] fills exactly [KAWPOW_REGS = 32] registers, each
    a 32-bit word, for every seed and lane. *)
Theorem kawpow_fill_mix_registers (seed lane_id : Z) :
  length (kawpow_fill_mix seed lane_id) = 32%nat
  /\ Forall is_u32 (kawpow_fill_mix seed lane_id).
Proof. apply kawpow_fill_mix_shape. Qed.

(** X9. Under one seed, two different lanes never start from the same
    generator state. *)
Theorem lanes_start_apart
    (seed l1 l2 : Z) (H1 : is_u32 l1) (H2 : is_u32 l2) (Hne : l1 <> l2) :
  kiss99_seed seed l1 <> kiss99_seed seed l2.
Proof. intros E. apply Hne. now apply (kiss99_seed_injective seed). Qed.

Lemma lanes_start_apart_witness :
  is_u32 0 /\ is_u32 15 /\ 0 <> 15
  /\ kiss99_seed 0 0 <> kiss99_seed 0 15.
Proof.
  assert (H1 : is_u32 0) by (unfold is_u32; lia).
  assert (H2 : is_u32 15) by (unfold is_u32; lia).
  assert (Hne : 0 <> 15) by lia.
  split; [exact H1|]. split; [exact H2|]. split; [exact Hne|].
  apply (lanes_start_apart 0 0 15 H1 H2 Hne).
Defined.

(** X10. [keccak_f800_progpow] is linear: on two 25-word states of 32-bit
    words, the image of their word-wise xor is the word-wise xor of their
    images. *)
Theorem keccak_f800_progpow_linear
    (s t : list Z) (Hs : sponge_state s) (Ht : sponge_state t) :
  keccak_f800_progpow (xor_state s t)
  = xor_state (keccak_f800_progpow s) (keccak_f800_progpow t).
Proof. now apply keccak_f800_progpow_xor. Qed.

Lemma keccak_f800_progpow_linear_witness :
  sponge_state (replicate 25 1) /\ sponge_state (replicate 25 2)
  /\ keccak_f800_progpow (xor_state (replicate 25 1) (replicate 25 2))
     = xor_state (keccak_f800_progpow (replicate 25 1))
                 (keccak_f800_progpow (replicate 25 2)).
Proof.
  assert (H1 : sponge_state (replicate 25 1)).
  { split; [apply length_replicate|]. apply Forall_replicate.
    unfold is_u32. lia. }
  assert (H2 : sponge_state (replicate 25 2)).
  { split; [apply length_replicate|]. apply Forall_replicate.
    unfold is_u32. lia. }
  split; [exact H1|]. split; [exact H2|].
  apply (keccak_f800_progpow_linear _ _ H1 H2).
Defined.

(** X11. [keccak_f800_progpow] is a permutation in the sense that it is
    one-to-one: two 25-word states of 32-bit words with the same image are
    the same state, and the image is again such a state. *)
Theorem keccak_f800_progpow_one_to_one
    (s t : list Z) (Hs : sponge_state s) (Ht : sponge_state t)
    (E : keccak_f800_progpow s = keccak_f800_progpow t) :
  s = t /\ sponge_state (keccak_f800_progpow s).
Proof.
  split; [now apply keccak_f800_progpow_injective|].
  now apply keccak_f800_progpow_sponge_state.
Qed.

Lemma keccak_f800_progpow_one_to_one_witness :
  sponge_state (replicate 25 7)
  /\ keccak_f800_progpow (replicate 25 7) = keccak_f800_progpow (replicate 25 7)
  /\ sponge_state (keccak_f800_progpow (replicate 25 7)).
Proof.
  assert (H : sponge_state (replicate 25 7)).
  { split; [apply length_replicate|]. apply Forall_replicate.
    unfold is_u32. lia. }
  split; [exact H|]. split; [reflexivity|].
  apply (keccak_f800_progpow_one_to_one _ _ H H eq_refl).
Defined.

(** X12. Output words 0, 1 and 2 of [keccak_f800_progpow] in closed form:
    output word [i] is built from the eight input words [i], [i + 2],
    [i + 4], [i + 6], [i + 16], [i + 18], [i + 20] and [i + 22] only, by
    rotations and xor. *)
Theorem keccak_f800_progpow_low_output_words
    (s : list Z) (i : Z) (Hs : sponge_state s) (Hi : 0 <= i <= 2) :
  get (keccak_f800_progpow s) i
  = Z.lxor
      (rotl32
         (Z.lxor
            (rotl32 (Z.lxor (rotl32 (get s i) 16) (get s (i + 16))) 4)
            (Z.lxor (rotl32 (get s (i + 4)) 16) (get s (i + 4 + 16)))) 2)
      (Z.lxor
         (rotl32 (Z.lxor (rotl32 (get s (i + 2)) 16) (get s (i + 2 + 16))) 4)
         (Z.lxor (rotl32 (get s (i + 2 + 4)) 16) (get s (i + 2 + 4 + 16)))).
Proof. now apply keccak_f800_progpow_low_words. Qed.

Lemma keccak_f800_progpow_low_output_words_witness :
  sponge_state (replicate 25 1) /\ 0 <= 1 <= 2
  /\ get (keccak_f800_progpow (replicate 25 1)) 1
     = Z.lxor
         (rotl32
            (Z.lxor
               (rotl32 (Z.lxor (rotl32 (get (replicate 25 1) 1) 16)
                               (get (replicate 25 1) (1 + 16))) 4)
               (Z.lxor (rotl32 (get (replicate 25 1) (1 + 4)) 16)
                       (get (replicate 25 1) (1 + 4 + 16)))) 2)
         (Z.lxor
            (rotl32 (Z.lxor (rotl32 (get (replicate 25 1) (1 + 2)) 16)
                            (get (replicate 25 1) (1 + 2 + 16))) 4)
            (Z.lxor (rotl32 (get (replicate 25 1) (1 + 2 + 4)) 16)
                    (get (replicate 25 1) (1 + 2 + 4 + 16)))).
Proof.
  assert (H : sponge_state (replicate 25 1)).
  { split; [apply length_replicate|]. apply Forall_replicate.
    unfold is_u32. lia. }
  assert (Hi : 0 <= 1 <= 2) by lia.
  split; [exact H|]. split; [exact Hi|].
  apply (keccak_f800_progpow_low_output_words _ 1 H Hi).
Defined.

(** X13. The digest of [kawpow_slow_hash] is determined by the number of
    words the absorb loop takes (at most 18) and by the header words 0 to
    7, 16 and 17 among them: two calls that agree on these write the same
    digest, whatever the seed hashes, the other header words and the
    lengths are. *)
Theorem kawpow_slow_hash_depends_on
    (sh1 sh2 : list byte) (d1 d2 : buffer) (l1 l2 : Z)
    (Hn : absorbed_words 18 l1 = absorbed_words 18 l2)
    (Hw : forall i, 0 <= i < absorbed_words 18 l1 -> i < 8 \/ 16 <= i ->
            load32 d1 i = load32 d2 i) :
  kawpow_slow_hash sh1 d1 l1 = kawpow_slow_hash sh2 d2 l2.
Proof. now apply kawpow_slow_hash_words. Qed.

Lemma kawpow_slow_hash_depends_on_witness :
  absorbed_words 18 9 = absorbed_words 18 11
  /\ kawpow_slow_hash [] (fun _ => x01) 9 = kawpow_slow_hash [] (fun _ => x01) 11.
Proof.
  assert (Hn : absorbed_words 18 9 = absorbed_words 18 11) by reflexivity.
  split; [exact Hn|].
  apply (kawpow_slow_hash_depends_on [] [] (fun _ => x01) (fun _ => x01)
           9 11 Hn).
  intros i _ _. reflexivity.
Defined.

(** X14. Bytes 32 to 63 of the header never reach the digest: two buffers
    of the same length that agree outside these offsets hash to the same
    digest. *)
Theorem kawpow_slow_hash_ignores_bytes_32_to_63
    (seedhash : list byte) (d1 d2 : buffer) (len : Z)
    (Hsame : forall j, j < 32 \/ 64 <= j -> d1 j = d2 j) :
  kawpow_slow_hash seedhash d1 len = kawpow_slow_hash seedhash d2 len.
Proof.
  apply kawpow_slow_hash_words; [reflexivity|].
  intros i _ Hi. apply load32_ext. intros j Hj. apply Hsame. lia.
Qed.

Lemma kawpow_slow_hash_ignores_bytes_32_to_63_witness :
  kawpow_slow_hash [] (fun _ => x00) 76
  = kawpow_slow_hash []
      (fun j => if (32 <=? j) && (j <? 64) then xff else x00) 76.
Proof.
  apply (kawpow_slow_hash_ignores_bytes_32_to_63 [] (fun _ => x00)
           (fun j => if (32 <=? j) && (j <? 64) then xff else x00) 76).
  intros j Hj.
  destruct (Z.leb_spec 32 j), (Z.ltb_spec j 64); cbn [andb];
    try reflexivity; lia.
Defined.

(** X15. Only the first 72 bytes count: two buffers of at least 72 and
    fewer than [2^33] bytes that agree on their first 72 bytes hash to the
    same digest, also when their lengths differ. *)
Theorem kawpow_slow_hash_first_72_bytes
    (seedhash : list byte) (d1 d2 : buffer) (l1 l2 : Z)
    (H1 : 72 <= l1 < 2 ^ 33) (H2 : 72 <= l2 < 2 ^ 33)
    (Hsame : forall j, 0 <= j < 72 -> d1 j = d2 j) :
  kawpow_slow_hash seedhash d1 l1 = kawpow_slow_hash seedhash d2 l2.
Proof.
  apply kawpow_slow_hash_words.
  - rewrite !absorbed_words_long by lia. reflexivity.
  - rewrite absorbed_words_long by lia. intros i Hi _.
    apply load32_ext. intros j Hj. apply Hsame. lia.
Qed.

Lemma kawpow_slow_hash_first_72_bytes_witness :
  72 <= 72 < 2 ^ 33 /\ 72 <= 200 < 2 ^ 33
  /\ kawpow_slow_hash [] (fun _ => x00) 72
     = kawpow_slow_hash [] (fun j => if j <? 72 then x00 else xff) 200.
Proof.
  assert (H1 : 72 <= 72 < 2 ^ 33) by lia.
  assert (H2 : 72 <= 200 < 2 ^ 33) by lia.
  split; [exact H1|]. split; [exact H2|].
  apply (kawpow_slow_hash_first_72_bytes [] (fun _ => x00)
           (fun j => if j <? 72 then x00 else xff) 72 200 H1 H2).
  intros j Hj. destruct (Z.ltb_spec j 72); [reflexivity | lia].
Defined.

(** X16. An input of fewer than four bytes is hashed as the empty input:
    its bytes are dropped, and the digest is the one of length 0. *)
Theorem kawpow_slow_hash_short_input
    (seedhash : list byte) (d1 d2 : buffer) (len : Z) (Hlen : 0 <= len < 4) :
  kawpow_slow_hash seedhash d1 len = kawpow_slow_hash seedhash d2 0.
Proof.
  apply kawpow_slow_hash_words.
  - rewrite !absorbed_words_short by lia. reflexivity.
  - rewrite absorbed_words_short by lia. intros i Hi. lia.
Qed.

Lemma kawpow_slow_hash_short_input_witness :
  0 <= 3 < 4
  /\ kawpow_slow_hash [] (fun _ => xff) 3 = kawpow_slow_hash [] (fun _ => x00) 0.
Proof.
  assert (H : 0 <= 3 < 4) by lia.
  split; [exact H|].
  apply (kawpow_slow_hash_short_input [] (fun _ => xff) (fun _ => x00) 3 H).
Defined.

(** X17. The main loop keeps the register file in shape: from 16 lanes of
    32 registers holding 32-bit words and a generator with a 32-bit shift
    register, it ends in such a state again; and the state
    [kawpow_slow_hash] starts the loop from has this shape for every
    seed. *)
Theorem main_loop_keeps_mix_shape (s : hstate) (Hs : mix_shape s) :
  mix_shape (snd (main_loop s))
  /\ forall seed,
       mix_shape
         (HState (List.map (fun l => kawpow_fill_mix seed l)
                    (List.map Z.of_nat (seq 0 (Z.to_nat KAWPOW_LANES))))
                 (prog_rnd_init prog_seed)).
Proof.
  split; [apply (keeps_shape_main_loop s Hs) | apply initial_mix_shape].
Qed.

Lemma main_loop_keeps_mix_shape_witness :
  mix_shape (HState (replicate 16 (replicate 32 0)) (Kiss99 0 0 0 0))
  /\ mix_shape
       (snd (main_loop
               (HState (replicate 16 (replicate 32 0)) (Kiss99 0 0 0 0)))).
Proof.
  assert (H : mix_shape
                (HState (replicate 16 (replicate 32 0)) (Kiss99 0 0 0 0))).
  { split; [reflexivity|]. split.
    - apply Forall_replicate. split; [reflexivity|].
      apply Forall_replicate. unfold is_u32. lia.
    - cbn [prog_rnd jsr]. unfold is_u32. lia. }
  split; [exact H|].
  exact (proj1 (main_loop_keeps_mix_shape _ H)).
Defined.

(** X18. The eight final words pair the lanes: final word [k] is
    [fnv1a (fnv1a FNV_OFFSET_BASIS d[k]) d[k + 8]], for the lane digests
    [d]; there are exactly eight of them. *)
Theorem final_digest_pairs_lanes (d : list Z) :
  final_digest d
  = List.map (fun k => fnv1a (fnv1a FNV_OFFSET_BASIS (get d k)) (get d (k + 8)))
             [0; 1; 2; 3; 4; 5; 6; 7].
Proof. apply final_digest_pairs. Qed.

(** X19. [kawpow_seedheight] brackets the height: for a 64-bit height the
    seed height is a multiple of the epoch length, is at most the height,
    and lies less than one epoch length below it. *)
Theorem kawpow_seedheight_brackets (h : Z) (Hh : is_u64 h) :
  kawpow_seedheight h <= h < kawpow_seedheight h + KAWPOW_EPOCH_LENGTH
  /\ kawpow_seedheight h mod KAWPOW_EPOCH_LENGTH = 0.
Proof. now apply kawpow_seedheight_bracket. Qed.

Lemma kawpow_seedheight_brackets_witness :
  is_u64 14999 /\ kawpow_seedheight 14999 <= 14999.
Proof.
  assert (H : is_u64 14999) by (unfold is_u64; lia).
  split; [exact H|].
  apply (kawpow_seedheight_brackets 14999 H).
Defined.

(** X20. [kawpow_seedheights] hands back the seed height and the start of
    the next epoch, which is its own seed height, for every height below
    18446744073709545000; from there on, in the last epoch that starts
    below [2^64], the next height wraps around to 884. *)
Theorem kawpow_seedheights_next_epoch (h : Z) (Hh : is_u64 h) :
  fst (kawpow_seedheights h) = kawpow_seedheight h
  /\ (h < 18446744073709545000 ->
      snd (kawpow_seedheights h) = kawpow_seedheight h + KAWPOW_EPOCH_LENGTH
      /\ kawpow_seedheight (snd (kawpow_seedheights h))
         = snd (kawpow_seedheights h))
  /\ (18446744073709545000 <= h ->
      kawpow_seedheights h = (18446744073709545000, 884)).
Proof. now apply kawpow_seedheights_next. Qed.

Lemma kawpow_seedheights_next_epoch_witness :
  is_u64 18446744073709551615
  /\ fst (kawpow_seedheights 18446744073709551615)
     = kawpow_seedheight 18446744073709551615.
Proof.
  assert (H : is_u64 18446744073709551615) by (unfold is_u64; lia).
  split; [exact H|].
  apply (kawpow_seedheights_next_epoch 18446744073709551615 H).
Defined.

(** X21. [hash2hex] writes 64 characters for a 32-byte hash and is
    one-to-one: different hashes are logged as different strings. *)
Theorem hash2hex_one_to_one
    (h1 h2 : list byte) (H1 : length h1 = 32%nat) (H2 : length h2 = 32%nat) :
  String.length (hash2hex h1) = 64%nat
  /\ (hash2hex h1 = hash2hex h2 -> h1 = h2).
Proof.
  split; [now apply hash2hex_length | now apply hash2hex_injective_32].
Qed.

Lemma hash2hex_one_to_one_witness :
  length (replicate 32 xab) = 32%nat /\ length (replicate 32 xcd) = 32%nat
  /\ String.length (hash2hex (replicate 32 xab)) = 64%nat.
Proof.
  split; [reflexivity|]. split; [reflexivity|].
  apply (hash2hex_one_to_one (replicate 32 xab) (replicate 32 xcd)
           eq_refl eq_refl).
Defined.

(** X22. No sequence of calls of the exported functions publishes a Cache
    or a Dataset or leaves the lock taken: when the lock is free, the
    stored seed hash has 32 bytes and the flag is 0 or 1, and every seed
    hash passed in has at least 32 bytes, then all this holds again after
    the calls, and [main_cache] and [main_dataset] are what they were. *)
Theorem exported_calls_keep_globals
    (cs : list call) (g : globals)
    (Hg : globals_ok g) (Hcs : Forall call_ok cs) :
  globals_ok (run cs g)
  /\ main_cache (run cs g) = main_cache g
  /\ main_dataset (run cs g) = main_dataset g.
Proof. now apply run_globals_ok. Qed.

Lemma exported_calls_keep_globals_witness :
  globals_ok initial_globals
  /\ Forall call_ok [SetMainSeedhash (replicate 32 x01) 1; AllocateState;
                     SlowHash [] (fun _ => x00) 0; SetMinerThread 3 1]
  /\ main_cache
       (run [SetMainSeedhash (replicate 32 x01) 1; AllocateState;
             SlowHash [] (fun _ => x00) 0; SetMinerThread 3 1]
            initial_globals)
     = main_cache initial_globals.
Proof.
  assert (Hg : globals_ok initial_globals).
  { split; [reflexivity|]. split; [reflexivity|]. now left. }
  assert (Hcs : Forall call_ok
                  [SetMainSeedhash (replicate 32 x01) 1; AllocateState;
                   SlowHash [] (fun _ => x00) 0; SetMinerThread 3 1]).
  { apply Forall_cons_2.
    - cbn [call_ok]. rewrite length_replicate. reflexivity.
    - repeat (apply Forall_cons_2; [exact I|]). apply Forall_nil_2. }
  split; [exact Hg|]. split; [exact Hcs|].
  exact (proj1 (proj2 (exported_calls_keep_globals _ _ Hg Hcs))).
Defined.

(** X23. After [kawpow_set_main_seedhash(seedhash)] the main seed hash is
    [seedhash] and no other: [is_main] accepts a 32-byte hash exactly when
    it equals the one set last. *)
Theorem is_main_after_set_main_seedhash
    (seedhash other : list byte) (threads : Z) (g : globals)
    (H1 : length seedhash = 32%nat) (H2 : length other = 32%nat) :
  is_main other (kawpow_set_main_seedhash seedhash threads g) = true
  <-> other = seedhash.
Proof. now apply is_main_after_set. Qed.

Lemma is_main_after_set_main_seedhash_witness :
  length (replicate 32 x01) = 32%nat /\ length (replicate 32 x02) = 32%nat
  /\ (is_main (replicate 32 x02)
        (kawpow_set_main_seedhash (replicate 32 x01) 1 initial_globals) = true
      <-> replicate 32 x02 = replicate 32 x01).
Proof.
  split; [reflexivity|]. split; [reflexivity|].
  apply (is_main_after_set_main_seedhash (replicate 32 x01) (replicate 32 x02)
           1 initial_globals eq_refl eq_refl).
Defined.

(** X24. What [kawpow_init_cache] leaves in a cache whose size is a
    positive multiple of 32: the first four bytes of every 32-byte block
    hold the fill pattern, whatever the key is; every other byte holds the
    key byte at its offset when that lies within the key, and zero
    otherwise. *)
Theorem kawpow_init_cache_bytes
    (d : buffer) (size : Z) (key : option buffer) (keySize j : Z)
    (Hsize : 0 < size) (Hmod : size mod 32 = 0) (Hj : 0 <= j < size) :
  exists d',
    kawpow_init_cache (Some (KawpowCache (Some d) size)) key keySize
    = Some (KawpowCache (Some d') size)
    /\ d' j
       = if j mod 32 <? 4 then cache_pattern j
         else match key with
              | Some k => if j <? keySize then k j else x00
              | None => x00
              end.
Proof. now apply kawpow_init_cache_content. Qed.

Lemma kawpow_init_cache_bytes_witness :
  0 < 64 /\ 64 mod 32 = 0 /\ 0 <= 33 < 64
  /\ exists d',
       kawpow_init_cache (Some (KawpowCache (Some (fun _ => xff)) 64))
         (Some (fun _ => x07)) 32
       = Some (KawpowCache (Some d') 64)
       /\ d' 33
          = if 33 mod 32 <? 4 then cache_pattern 33
            else if 33 <? 32 then x07 else x00.
Proof.
  assert (H1 : 0 < 64) by lia.
  assert (H2 : 64 mod 32 = 0) by reflexivity.
  assert (H3 : 0 <= 33 < 64) by lia.
  split; [exact H1|]. split; [exact H2|]. split; [exact H3|].
  apply (kawpow_init_cache_bytes (fun _ => xff) 64 (Some (fun _ => x07)) 32 33
           H1 H2 H3).
Defined.

(** X25. For a header of fewer than [2^33] bytes the absorb loop leaves
    the first 18 whole little-endian words of the header in the state,
    zero-padded to 18 words when there are fewer, in a 25-word state that
    is zero elsewhere; bytes after the last whole word are dropped. *)
Theorem absorb_takes_first_18_words
    (bytes : list byte) (Hlen : Z.of_nat (length bytes) / 4 < 2 ^ 31) :
  absorb 18 (buffer_of_list bytes) (Z.of_nat (length bytes))
  = absorb_spec bytes.
Proof. now apply absorb_absorb_spec. Qed.

Lemma absorb_takes_first_18_words_witness :
  Z.of_nat (length [x01; x02; x03; x04; x05]) / 4 < 2 ^ 31
  /\ absorb 18 (buffer_of_list [x01; x02; x03; x04; x05])
       (Z.of_nat (length [x01; x02; x03; x04; x05]))
     = absorb_spec [x01; x02; x03; x04; x05].
Proof.
  assert (H : Z.of_nat (length [x01; x02; x03; x04; x05]) / 4 < 2 ^ 31)
    by reflexivity.
  split; [exact H|].
  apply (absorb_takes_first_18_words [x01; x02; x03; x04; x05] H).
Defined.
